(** * AI Broadcast Monitor: the event simulator loop of [App.tsx]

    A shallow embedding of the stateful part of the [App] component
    (src/App.tsx) and of the data model of src/types.ts.

    The component is driven by the browser's event loop: every piece of
    code in it runs as a callback (the mount effect, the recurring timer,
    the two kinds of one-shot timers, the two promise continuations, the
    effect's cleanup).  The embedding therefore has

    - a record [State] with the three React state cells of [App]
      ([signalStatus], [alerts], [isLoading]) and the part of the runtime
      the callbacks talk to (pending timers, suspended [generateAlert]
      invocations, requests sent to the completion service, the camera
      promise, the console, the clock);
    - a small state-and-exception monad [Eff] in which the callbacks are
      written statement by statement, with JavaScript's
      try / catch / finally;
    - a function [step] that delivers one event of the event loop.

    Numbers: [Date.now()] is an integer count of milliseconds ([Z]).
    [Math.random()] and what is computed from it are IEEE 754 doubles in
    the source.  A finite double is a rational, so they are values of [Q],
    and every arithmetic operation of the source is the exact operation
    followed by [round_double], the rounding to the nearest double with
    ties to even.  The delay given to [setInterval] is converted by the
    runtime to a whole number of milliseconds ([timer_ms]). *)

From Stdlib Require Import ZArith QArith Qround Qabs Qpower Qreduction.
From Stdlib Require Import String Ascii List Bool Lia.
From stdpp Require Import base list.
Import ListNotations.
Open Scope Z_scope.

(** ** Data model (src/types.ts) *)

Inductive SignalStatus := Good | Warning | Error.

#[global] Instance SignalStatus_eq_dec : EqDecision SignalStatus.
Proof. solve_decision. Defined.

Record AlertMessage := mkAlert {
  id : Z;
  timestamp : string;
  type : SignalStatus;
  message : string
}.

(** ** What the runtime keeps for the component *)

(** The bindings of one render of [App] that the callbacks created by that
    render's effect close over.  Of the state cells only [isLoading] is
    read by a callback (the recurring timer's). *)
Record RenderScope := mkScope { scope_isLoading : bool }.

(** The two callbacks handed to [setTimeout]. *)
Inductive TimeoutAction :=
| InitialMessage   (* () => generateAlert("Monitoring initialized. ...", Good) *)
| ResetStatus.     (* () => setSignalStatus(SignalStatus.Good) *)

Record Timeout := mkTimeout {
  t_armed : Z;               (* clock reading when setTimeout was called *)
  t_delay : Z;               (* its delay argument, ms *)
  t_action : TimeoutAction
}.

(** The handle made by [setInterval]: the callback (given by the scope it
    closes over) and the delay argument, which the runtime reuses for
    every firing. *)
Record IntervalTimer := mkInterval {
  i_armed : Z;               (* clock reading of creation or of the last firing *)
  i_period : Q;              (* the delay argument, ms *)
  i_scope : RenderScope
}.

(** A call of [ai.models.generateContent]. *)
Record ContentRequest := mkRequest {
  rq_model : string;
  rq_contents : string
}.

(** An invocation of [generateAlert] suspended at its [await]; [type] is
    the only local it reads afterwards. *)
Record Suspended := mkSuspended { sus_type : SignalStatus }.

(** How the awaited promise settles. *)
Inductive Settlement :=
| Fulfilled (text : string)   (* response.text *)
| Rejected (reason : string).

(** The promise of [getUserMedia]: not requested, pending, fulfilled (and
    whether the stream was attached to the video element), rejected. *)
Inductive CameraState :=
| NotRequested
| Pending
| Granted (playing : bool)
| Unavailable.

Record State := mkState {
  signalStatus : SignalStatus;
  alerts : list AlertMessage;
  isLoading : bool;
  interval : option IntervalTimer;
  timeouts : list Timeout;
  awaiting : list Suspended;
  requests : list ContentRequest;
  camera : CameraState;
  console : list string;
  clock : Z
}.

Definition with_signalStatus (v : SignalStatus) (s : State) : State :=
  mkState v (alerts s) (isLoading s) (interval s) (timeouts s) (awaiting s)
          (requests s) (camera s) (console s) (clock s).
Definition with_alerts (v : list AlertMessage) (s : State) : State :=
  mkState (signalStatus s) v (isLoading s) (interval s) (timeouts s) (awaiting s)
          (requests s) (camera s) (console s) (clock s).
Definition with_isLoading (v : bool) (s : State) : State :=
  mkState (signalStatus s) (alerts s) v (interval s) (timeouts s) (awaiting s)
          (requests s) (camera s) (console s) (clock s).
Definition with_interval (v : option IntervalTimer) (s : State) : State :=
  mkState (signalStatus s) (alerts s) (isLoading s) v (timeouts s) (awaiting s)
          (requests s) (camera s) (console s) (clock s).
Definition with_timeouts (v : list Timeout) (s : State) : State :=
  mkState (signalStatus s) (alerts s) (isLoading s) (interval s) v (awaiting s)
          (requests s) (camera s) (console s) (clock s).
Definition with_awaiting (v : list Suspended) (s : State) : State :=
  mkState (signalStatus s) (alerts s) (isLoading s) (interval s) (timeouts s) v
          (requests s) (camera s) (console s) (clock s).
Definition with_requests (v : list ContentRequest) (s : State) : State :=
  mkState (signalStatus s) (alerts s) (isLoading s) (interval s) (timeouts s)
          (awaiting s) v (camera s) (console s) (clock s).
Definition with_camera (v : CameraState) (s : State) : State :=
  mkState (signalStatus s) (alerts s) (isLoading s) (interval s) (timeouts s)
          (awaiting s) (requests s) v (console s) (clock s).
Definition with_console (v : list string) (s : State) : State :=
  mkState (signalStatus s) (alerts s) (isLoading s) (interval s) (timeouts s)
          (awaiting s) (requests s) (camera s) v (clock s).
Definition with_clock (v : Z) (s : State) : State :=
  mkState (signalStatus s) (alerts s) (isLoading s) (interval s) (timeouts s)
          (awaiting s) (requests s) (camera s) (console s) v.

(** ** Callbacks as computations: state plus exceptions *)

Inductive Completion (A : Type) :=
| Normal (a : A)
| Throw (e : string).
Arguments Normal {A} a.
Arguments Throw {A} e.

Definition Eff (A : Type) : Type := State -> State * Completion A.

Definition ret {A} (a : A) : Eff A := fun s => (s, Normal a).
Definition throw {A} (e : string) : Eff A := fun s => (s, Throw e).
Definition bind {A B} (m : Eff A) (k : A -> Eff B) : Eff B :=
  fun s =>
    match m s with
    | (s1, Normal a) => k a s1
    | (s1, Throw e) => (s1, Throw e)
    end.

Declare Scope eff_scope.
Delimit Scope eff_scope with eff.
Notation "x <- m ;; k" := (bind m (fun x => k))
  (at level 100, m at next level, k at level 200, right associativity) : eff_scope.
Notation "m ;; k" := (bind m (fun _ => k))
  (at level 100, k at level 200, right associativity) : eff_scope.

(** [try { body } catch (e) { handler e } finally { fin }]: the handler
    runs on a throw of the body, [fin] runs in every case, and a throw of
    [fin] replaces the completion reached before it. *)
Definition try_catch_finally {A}
    (body : Eff A) (handler : string -> Eff A) (fin : Eff unit) : Eff A :=
  fun s =>
    let (s1, c1) := match body s with
                    | (s0, Normal a) => (s0, Normal a)
                    | (s0, Throw e) => handler e s0
                    end in
    match fin s1 with
    | (s2, Normal _) => (s2, c1)
    | (s2, Throw e) => (s2, Throw e)
    end.

(** A callback run by the event loop: an exception that escapes it is
    reported by the runtime and goes no further. *)
Definition exec {A} (m : Eff A) (s : State) : State := fst (m s).

(** ** The React setters and the browser calls used by [App] *)

Definition setSignalStatus (v : SignalStatus) : Eff unit :=
  fun s => (with_signalStatus v s, Normal tt).
Definition setIsLoading (v : bool) : Eff unit :=
  fun s => (with_isLoading v s, Normal tt).
(** [setAlerts] is always called with an updater [prev => ...]. *)
Definition setAlerts (f : list AlertMessage -> list AlertMessage) : Eff unit :=
  fun s => (with_alerts (f (alerts s)) s, Normal tt).

Definition Date_now : Eff Z := fun s => (s, Normal (clock s)).
Definition console_error (msg : string) : Eff unit :=
  fun s => (with_console (console s ++ [msg]) s, Normal tt).
Definition setTimeout (a : TimeoutAction) (delay : Z) : Eff unit :=
  fun s => (with_timeouts (timeouts s ++ [mkTimeout (clock s) delay a]) s, Normal tt).
Definition setInterval (scope : RenderScope) (delay : Q) : Eff unit :=
  fun s => (with_interval (Some (mkInterval (clock s) delay scope)) s, Normal tt).
Definition clearInterval : Eff unit :=
  fun s => (with_interval None s, Normal tt).
Definition getUserMedia : Eff unit :=
  fun s => (with_camera Pending s, Normal tt).

(** [ai.models.generateContent({ model, contents })]: the request goes
    out; its promise settles in a later event. *)
Definition generateContent (model contents : string) : Eff unit :=
  fun s => (with_requests (requests s ++ [mkRequest model contents]) s, Normal tt).
(** [await]: the invocation is parked until the promise settles. *)
Definition suspend (fr : Suspended) : Eff unit :=
  fun s => (with_awaiting (awaiting s ++ [fr]) s, Normal tt).

(** ** The [App] component (src/App.tsx) *)

Record Issue := mkIssue { issue_type : SignalStatus; issue : string }.

Definition possibleIssues : list Issue := [
  mkIssue Warning "Slight audio desynchronization detected on channel 3.";
  mkIssue Error "Critical signal loss on primary satellite uplink.";
  mkIssue Warning "Minor video artifacting (pixelation) observed during high-motion scene.";
  mkIssue Error "Complete audio dropout on main program feed.";
  mkIssue Warning "Loudness levels exceed EBU R128 standard by 2 LU.";
  mkIssue Good "System check complete. All parameters are nominal."
].

Definition newline : string := String "010"%char EmptyString.
Definition dquote : string := String "034"%char EmptyString.

(** The template literal of [generateAlert]. *)
Definition prompt_of (issue_text : string) : string :=
  ("You are an AI broadcast monitoring system. An anomaly has been detected."
   ++ newline
   ++ "      Describe the following issue in a concise, technical alert for a broadcast operator: "
   ++ dquote ++ issue_text ++ dquote)%string.

Definition fallbackMessage : string :=
  "Failed to get analysis from AI. Check API connection.".
Definition webcamMessage : string :=
  "Webcam access denied or unavailable. Displaying placeholder background.".
Definition initialIssue : string :=
  "Monitoring initialized. Primary video and audio feeds are stable.".

(** [possibleIssues[i]] for a number [i] that is an integer: [undefined]
    outside the array. *)
Definition array_get {A} (l : list A) (i : Z) : option A :=
  if i <? 0 then None else l !! Z.to_nat i.

(** ** Double arithmetic

    The finite doubles are the rationals [m * 2^e] with [|m| < 2^53] and
    [-1074 <= e <= 971].  The numbers of this component stay below
    [2^14], far from overflow, which is therefore left out. *)

Definition pow2 (z : Z) : Q := ((2 # 1) ^ z)%Q.

(** Rounding to the nearest integer, ties to the even one. *)
Definition round_half_even (x : Q) : Z :=
  let f := Qfloor x in
  match Qcompare (x - inject_Z f) (1 # 2) with
  | Lt => f
  | Gt => f + 1
  | Eq => if Z.even f then f else f + 1
  end.

(** For [0 < x], the [e] with [2^e <= x < 2^(e+1)]. *)
Definition ilog2 (x : Q) : Z :=
  let e0 := Z.log2 (Qnum x) - Z.log2 (Z.pos (Qden x)) in
  if Qle_bool (pow2 e0) x then e0 else e0 - 1.

(** The spacing of the doubles around [x]: 52 binary places below its
    leading bit, and [2^-1074] throughout the subnormal range. *)
Definition quantum (x : Q) : Q :=
  pow2 (Z.max (ilog2 (Qabs x)) (-1022) - 52).

Definition round_double (x : Q) : Q :=
  if Qeq_bool x 0 then 0%Q
  else Qred (inject_Z (round_half_even (x / quantum x)) * quantum x).

(** The operators [*], [+] and [-] of the source on numbers. *)
Definition fmul (a b : Q) : Q := round_double (a * b).
Definition fadd (a b : Q) : Q := round_double (a + b).
Definition fsub (a b : Q) : Q := round_double (a - b).

(** The rationals that are doubles. *)
Definition is_double (x : Q) : bool := Qeq_bool (round_double x) x.

(** What the timer functions do with their delay argument: the conversion
    of a number to the 32-bit integer type of the parameter (truncate,
    wrap), then no negative delay. *)
Definition to_long (x : Q) : Z :=
  let w := (Z.quot (Qnum x) (Z.pos (Qden x))) mod 2 ^ 32 in
  if w <? 2 ^ 31 then w else w - 2 ^ 32.

Definition timer_ms (delay : Q) : Z := Z.max 0 (to_long delay).

(** The argument the effect passes to [setInterval]:
    [Math.random() * (15000 - 8000) + 8000]. *)
Definition intervalDelay (rnd : Q) : Q :=
  fadd (fmul rnd (fsub (inject_Z 15000) (inject_Z 8000))) (inject_Z 8000).

(** When a timer is due: the runtime never fires it early.  The
    recurring timer counts the whole milliseconds of its delay. *)
Definition timeout_due (tm : Timeout) (now : Z) : bool :=
  t_armed tm + t_delay tm <=? now.
Definition interval_due (iv : IntervalTimer) (now : Z) : bool :=
  i_armed iv + timer_ms (i_period iv) <=? now.

(** One [toLocaleTimeString]: the 24-hour clock face, UTC.  It serves to
    run the model on concrete sessions. *)
Definition two_digits (n : Z) : string :=
  String (ascii_of_nat (48 + Z.to_nat (n / 10)))
    (String (ascii_of_nat (48 + Z.to_nat (n mod 10))) EmptyString).

Definition utcTimeString (ms : Z) : string :=
  (two_digits ((ms / 3600000) mod 24) ++ ":" ++
   two_digits ((ms / 60000) mod 60) ++ ":" ++
   two_digits ((ms / 1000) mod 60))%string.

(** ** The display components (src/App.tsx, [StatusIndicator] and
    [AlertLog]) *)

(** The string value of a member of the enum [SignalStatus]. *)
Definition enumValue (st : SignalStatus) : string :=
  match st with
  | Good => "Good"
  | Warning => "Warning"
  | Error => "Error"
  end.

(** [String.prototype.toUpperCase] on ASCII text. *)
Definition upper_ascii (c : ascii) : ascii :=
  let n := nat_of_ascii c in
  if ((97 <=? n) && (n <=? 122))%nat then ascii_of_nat (n - 32) else c.

Fixpoint toUpperCase (str : string) : string :=
  match str with
  | EmptyString => EmptyString
  | String c rest => String (upper_ascii c) (toUpperCase rest)
  end.

(** An entry of [statusConfig] in [StatusIndicator]. *)
Record BadgeConfig := mkBadge {
  badge_text : string;
  badge_color : string;
  badge_textColor : string
}.

Definition statusConfig (st : SignalStatus) : BadgeConfig :=
  match st with
  | Good => mkBadge "OPERATIONAL" "bg-green-500" "text-green-400"
  | Warning => mkBadge "WARNING" "bg-yellow-500" "text-yellow-400"
  | Error => mkBadge "CRITICAL" "bg-red-500" "text-red-400"
  end.

(** [getAlertStyle] of [AlertLog]: a [switch] whose [default] serves
    Good. *)
Definition getAlertStyle (ty : SignalStatus) : string :=
  match ty with
  | Warning => "border-l-4 border-yellow-500 bg-yellow-500/10"
  | Error => "border-l-4 border-red-500 bg-red-500/10"
  | _ => "border-l-4 border-green-500 bg-green-500/10"
  end.

(** The conditional that colours the severity label of a row. *)
Definition alertLabelColor (ty : SignalStatus) : string :=
  if decide (ty = Error) then "text-red-400"
  else if decide (ty = Warning) then "text-yellow-400"
  else "text-green-400".

(** The children of the scrolling [div] of [AlertLog]: one keyed row per
    alert, the loading line, the anchor [logEndRef] scrolls to. *)
Inductive LogChild :=
| AlertRow (key : Z) (className labelClass label time text : string)
| LoadingRow
| LogEnd.

Definition alertRow (a : AlertMessage) : LogChild :=
  AlertRow (id a)
           ("p-3 rounded-md " ++ getAlertStyle (type a))%string
           ("font-semibold " ++ alertLabelColor (type a))%string
           (toUpperCase (enumValue (type a)))
           (timestamp a)
           (message a).

Definition AlertLog (alerts : list AlertMessage) (isLoading : bool)
  : list LogChild :=
  map alertRow alerts ++ (if isLoading then [LoadingRow] else []) ++ [LogEnd].

(** The key React is given for a child, if any. *)
Definition child_key (c : LogChild) : option Z :=
  match c with
  | AlertRow key _ _ _ _ _ => Some key
  | _ => None
  end.

(** ** Counting, for the accounting of sessions *)

Fixpoint count {A} (f : A -> bool) (l : list A) : nat :=
  match l with
  | [] => 0%nat
  | x :: l' => ((if f x then 1 else 0) + count f l')%nat
  end.

Definition is_bootstrap_request (r : ContentRequest) : bool :=
  String.eqb (rq_contents r) (prompt_of initialIssue).

Definition is_bootstrap_timer (tm : Timeout) : bool :=
  match t_action tm with
  | InitialMessage => true
  | ResetStatus => false
  end.

Section App.

(** [new Date().toLocaleTimeString()] at a given clock reading: the
    locale's formatting is the browser's. *)
Variable toLocaleTimeString : Z -> string.

Local Open Scope eff_scope.

(** [generateAlert], up to its [await]. *)
Definition generateAlert (issue_text : string) (ty : SignalStatus) : Eff unit :=
  setIsLoading true ;;
  (if decide (ty <> Good) then setSignalStatus ty else ret tt) ;;
  generateContent "gemini-2.5-flash" (prompt_of issue_text) ;;
  suspend (mkSuspended ty).

(** The value of [await ai.models.generateContent(...)], then
    [response.text]. *)
Definition awaited (o : Settlement) : Eff string :=
  match o with
  | Fulfilled text => ret text
  | Rejected reason => throw reason
  end.

(** [generateAlert], from the settlement of the awaited promise to its
    end.  The [try] block opens before the [await]: its first statements,
    which build the prompt and make the call, are in [generateAlert]
    above.  The completion of this computation is that of the [async]
    function: [Throw] would reject the promise it returned. *)
Definition generateAlert_resume (fr : Suspended) (o : Settlement) : Eff unit :=
  let ty := sus_type fr in
  try_catch_finally
    (msg <- awaited o ;;
     now <- Date_now ;;
     setAlerts (fun prev => prev ++ [mkAlert now (toLocaleTimeString now) ty msg]) ;;
     (if decide (ty = Good) then setTimeout ResetStatus 1000 else ret tt))
    (fun error =>
       console_error ("Error generating alert: " ++ error)%string ;;
       setSignalStatus Error ;;
       now <- Date_now ;;
       setAlerts (fun prev =>
         prev ++ [mkAlert now (toLocaleTimeString now) Error fallbackMessage]))
    (setIsLoading false).

(** The [.then] and [.catch] callbacks of [getUserMedia].  The first
    attaches the stream if [videoRef.current] is set. *)
Definition getUserMedia_then (refAttached : bool) : Eff unit :=
  fun s => (with_camera (Granted refAttached) s, Normal tt).

Definition getUserMedia_catch (err : string) : Eff unit :=
  console_error ("Error accessing webcam: " ++ err)%string ;;
  now <- Date_now ;;
  setAlerts (fun prev =>
    prev ++ [mkAlert now (toLocaleTimeString now) Error webcamMessage]).

(** The callback given to [setInterval].  [isLoading] is the binding of
    the render whose effect created the timer; [rnd] is what
    [Math.random()] returns. *)
Definition intervalCallback (scope : RenderScope) (rnd : Q) : Eff unit :=
  if scope_isLoading scope then ret tt
  else
    match array_get possibleIssues
            (Qfloor (fmul rnd (inject_Z (Z.of_nat (length possibleIssues))))) with
    | Some randomIssue => generateAlert (issue randomIssue) (issue_type randomIssue)
    | None => throw "TypeError: randomIssue is undefined"
    end.

(** The callbacks given to [setTimeout]. *)
Definition timeoutCallback (a : TimeoutAction) : Eff unit :=
  match a with
  | InitialMessage => generateAlert initialIssue Good
  | ResetStatus => setSignalStatus Good
  end.

(** The body of [useEffect(() => { ... }, [])] and the cleanup it
    returns.  [scope] holds the bindings of the render the effect belongs
    to. *)
Definition App_effect (hasGetUserMedia : bool) (rnd : Q) (scope : RenderScope)
  : Eff unit :=
  (if hasGetUserMedia then getUserMedia else ret tt) ;;
  setInterval scope (intervalDelay rnd) ;;
  setTimeout InitialMessage 1500.

Definition App_cleanup : Eff unit := clearInterval.

Local Close Scope eff_scope.

(** The state cells as [useState] initialises them, and what a render
    binds. *)
Definition initialState (t0 : Z) : State :=
  mkState Good [] false None [] [] [] NotRequested [] t0.

Definition render (s : State) : RenderScope := mkScope (isLoading s).

(** Mounting: the first render sees the initial state; the dependency
    list of the effect is empty, so the effect runs after that render and
    never again. *)
Definition mount (t0 : Z) (hasGetUserMedia : bool) (rnd : Q) : State :=
  exec (App_effect hasGetUserMedia rnd (render (initialState t0))) (initialState t0).

(** ** The event loop *)

Inductive Event :=
| CameraGranted (refAttached : bool)      (* getUserMedia's promise fulfils *)
| CameraDenied (err : string)             (* ... or rejects *)
| IntervalFired (rnd : Q)                 (* the recurring timer fires *)
| TimeoutFired (k : nat)                  (* the k-th pending one-shot timer fires *)
| ContentSettled (k : nat) (o : Settlement) (* the k-th awaited promise settles *)
| Unmount.                                (* React runs the effect's cleanup *)

(** One event delivered at clock reading [now].  [None]: the runtime
    cannot deliver this event in this state (the clock does not run
    backwards, a timer is not fired early or twice, a promise settles
    once). *)
Definition step (now : Z) (e : Event) (s : State) : option State :=
  if now <? clock s then None
  else
    let s0 := with_clock now s in
    match e with
    | CameraGranted refAttached =>
        match camera s0 with
        | Pending => Some (exec (getUserMedia_then refAttached) s0)
        | _ => None
        end
    | CameraDenied err =>
        match camera s0 with
        | Pending => Some (exec (getUserMedia_catch err) (with_camera Unavailable s0))
        | _ => None
        end
    | IntervalFired rnd =>
        match interval s0 with
        | Some iv =>
            if interval_due iv now
            then Some (exec (intervalCallback (i_scope iv) rnd)
                            (with_interval
                               (Some (mkInterval now (i_period iv) (i_scope iv))) s0))
            else None
        | None => None
        end
    | TimeoutFired k =>
        match timeouts s0 !! k with
        | Some tm =>
            if timeout_due tm now
            then Some (exec (timeoutCallback (t_action tm))
                            (with_timeouts (delete k (timeouts s0)) s0))
            else None
        | None => None
        end
    | ContentSettled k o =>
        match awaiting s0 !! k with
        | Some fr =>
            Some (exec (generateAlert_resume fr o)
                       (with_awaiting (delete k (awaiting s0)) s0))
        | None => None
        end
    | Unmount => Some (exec App_cleanup s0)
    end.

(** A run: the events of a session with their clock readings, in order. *)
Fixpoint run (tr : list (Z * Event)) (s : State) : option State :=
  match tr with
  | [] => Some s
  | (now, e) :: tr' =>
      match step now e s with
      | Some s' => run tr' s'
      | None => None
      end
  end.

(** The badge text of [StatusIndicator]. *)
Definition statusText (st : SignalStatus) : string :=
  match st with
  | Good => "OPERATIONAL"
  | Warning => "WARNING"
  | Error => "CRITICAL"
  end.

(** Events that run one of the three operations that write the log: the
    two continuations of [generateAlert] and the camera's [.catch]. *)
Definition writes_log (e : Event) : bool :=
  match e with
  | ContentSettled _ _ | CameraDenied _ => true
  | _ => false
  end.

Fixpoint log_writes (tr : list (Z * Event)) : nat :=
  match tr with
  | [] => 0%nat
  | (_, e) :: tr' => ((if writes_log e then 1 else 0) + log_writes tr')%nat
  end.

(** Settlements of completion calls in a run, and the clock readings of
    the events of a run that write the log. *)
Definition is_settlement (e : Event) : bool :=
  match e with
  | ContentSettled _ _ => true
  | _ => false
  end.

Fixpoint settlements (tr : list (Z * Event)) : nat :=
  match tr with
  | [] => 0%nat
  | (_, e) :: tr' => ((if is_settlement e then 1 else 0) + settlements tr')%nat
  end.

Fixpoint write_times (tr : list (Z * Event)) : list Z :=
  match tr with
  | [] => []
  | (now, e) :: tr' =>
      if writes_log e then now :: write_times tr' else write_times tr'
  end.

(** What [App] hands to its two display components. *)
Definition App_view (s : State) : BadgeConfig * list LogChild :=
  (statusConfig (signalStatus s), AlertLog (alerts s) (isLoading s)).

(** Events whose callback may call [setSignalStatus]: a firing of the
    recurring timer (entry into [generateAlert] with a severity other
    than Good), the reset timer, and a failed completion call. *)
Definition sets_status (e : Event) (s : State) : bool :=
  match e with
  | IntervalFired _ => true
  | TimeoutFired k =>
      match timeouts s !! k with
      | Some (mkTimeout _ _ ResetStatus) => true
      | _ => false
      end
  | ContentSettled _ (Rejected _) => true
  | _ => false
  end.

(** Ids in log order never decrease. *)
Definition ids_sorted (l : list AlertMessage) : Prop :=
  forall i j a b, (i < j)%nat -> l !! i = Some a -> l !! j = Some b -> id a <= id b.

(** ** What each callback does to the state *)

Lemma generateAlert_eq issue_text ty s :
  generateAlert issue_text ty s =
  (mkState (if decide (ty <> Good) then ty else signalStatus s)
           (alerts s) true (interval s) (timeouts s)
           (awaiting s ++ [mkSuspended ty])
           (requests s ++ [mkRequest "gemini-2.5-flash" (prompt_of issue_text)])
           (camera s) (console s) (clock s),
   Normal tt).
Proof. destruct ty; reflexivity. Qed.

Lemma resume_fulfilled_eq fr text s :
  generateAlert_resume fr (Fulfilled text) s =
  (mkState (signalStatus s)
           (alerts s ++ [mkAlert (clock s) (toLocaleTimeString (clock s)) (sus_type fr) text])
           false (interval s)
           (if decide (sus_type fr = Good)
            then timeouts s ++ [mkTimeout (clock s) 1000 ResetStatus]
            else timeouts s)
           (awaiting s) (requests s) (camera s) (console s) (clock s),
   Normal tt).
Proof. destruct fr as [[]]; reflexivity. Qed.

Lemma resume_rejected_eq fr reason s :
  generateAlert_resume fr (Rejected reason) s =
  (mkState Error
           (alerts s ++ [mkAlert (clock s) (toLocaleTimeString (clock s)) Error fallbackMessage])
           false (interval s) (timeouts s) (awaiting s) (requests s) (camera s)
           (console s ++ [("Error generating alert: " ++ reason)%string])
           (clock s),
   Normal tt).
Proof. reflexivity. Qed.

Lemma getUserMedia_catch_eq err s :
  getUserMedia_catch err s =
  (mkState (signalStatus s)
           (alerts s ++ [mkAlert (clock s) (toLocaleTimeString (clock s)) Error webcamMessage])
           (isLoading s) (interval s) (timeouts s) (awaiting s) (requests s) (camera s)
           (console s ++ [("Error accessing webcam: " ++ err)%string])
           (clock s),
   Normal tt).
Proof. reflexivity. Qed.

(** The recurring timer's callback either does nothing, or throws before
    touching the state, or is one entry into [generateAlert]. *)
Lemma intervalCallback_cases scope rnd s :
  intervalCallback scope rnd s = (s, Normal tt) \/
  (exists e, intervalCallback scope rnd s = (s, Throw e)) \/
  (exists i, i ∈ possibleIssues /\
             intervalCallback scope rnd s = generateAlert (issue i) (issue_type i) s).
Proof.
  unfold intervalCallback. destruct (scope_isLoading scope); [by left|].
  destruct (array_get possibleIssues _) as [i|] eqn:Hget.
  - right; right. exists i. split; [|done].
    unfold array_get in Hget. destruct (_ <? 0); [done|].
    by eapply list_elem_of_lookup_2.
  - right; left. by eexists.
Qed.

Lemma timeoutCallback_eq a s :
  timeoutCallback a s =
  match a with
  | InitialMessage => generateAlert initialIssue Good s
  | ResetStatus => (with_signalStatus Good s, Normal tt)
  end.
Proof. by destruct a. Qed.

(** ** What one event does to the state *)

Ltac callback_eqs :=
  rewrite ?generateAlert_eq, ?resume_fulfilled_eq, ?resume_rejected_eq,
          ?getUserMedia_catch_eq, ?timeoutCallback_eq.

(** Splits a delivered event into the cases of [step]. *)
Ltac step_inv H :=
  unfold step in H;
  match type of H with
  | (if ?c then _ else _) = _ => destruct c eqn:?; [discriminate H|]
  end;
  try match type of H with
  | match ?e with _ => _ end = _ => is_var e; destruct e
  end;
  repeat match type of H with
  | match ?x with _ => _ end = _ => destruct x eqn:?; try discriminate H
  | (if ?c then _ else _) = _ => destruct c eqn:?; try discriminate H
  end;
  injection H as <-.

Lemma step_clock now e s s' :
  step now e s = Some s' -> clock s <= now /\ clock s' = now.
Proof.
  intros H. step_inv H; (split; [lia|]); unfold exec; callback_eqs; try done.
  - destruct (intervalCallback_cases (i_scope i) rnd
                (with_interval (Some (mkInterval now (i_period i) (i_scope i)))
                               (with_clock now s)))
      as [-> | [[x ->] | (x & _ & ->)]]; callback_eqs; done.
  - by destruct (t_action t); callback_eqs.
  - by destruct o; callback_eqs.
Qed.

(** The log after an event: one entry more, stamped with the clock
    reading of the event, for the three operations that write the log;
    the same log for every other event. *)
Lemma step_alerts now e s s' :
  step now e s = Some s' ->
  if writes_log e
  then exists ts ty msg, alerts s' = alerts s ++ [mkAlert now ts ty msg]
  else alerts s' = alerts s.
Proof.
  intros H. step_inv H; unfold exec; callback_eqs; simpl; eauto.
  - destruct (intervalCallback_cases (i_scope i) rnd
                (with_interval (Some (mkInterval now (i_period i) (i_scope i)))
                               (with_clock now s)))
      as [-> | [[x ->] | (x & _ & ->)]]; callback_eqs; done.
  - by destruct (t_action t); callback_eqs.
  - destruct o; callback_eqs; simpl; eauto.
Qed.

(** The recurring timer after an event: if there is one, it is the one
    there was, with the same delay and the same callback. *)
Lemma step_interval now e s s' iv' :
  step now e s = Some s' ->
  interval s' = Some iv' ->
  exists iv, interval s = Some iv /\
             i_period iv' = i_period iv /\ i_scope iv' = i_scope iv.
Proof.
  intros H. step_inv H; unfold exec; callback_eqs; simpl; eauto.
  - destruct (intervalCallback_cases (i_scope i) rnd
                (with_interval (Some (mkInterval now (i_period i) (i_scope i)))
                               (with_clock now s)))
      as [-> | [[x ->] | (x & _ & ->)]]; callback_eqs; simpl;
      intros [= <-]; eauto.
  - destruct (t_action t); callback_eqs; simpl; eauto.
  - destruct o; callback_eqs; simpl; eauto.
  - done.
Qed.

Lemma step_settled now k o fr s :
  clock s <= now ->
  awaiting s !! k = Some fr ->
  step now (ContentSettled k o) s =
  Some (exec (generateAlert_resume fr o)
             (with_awaiting (delete k (awaiting s)) (with_clock now s))).
Proof.
  intros Hclk Hk. unfold step.
  destruct (now <? clock s) eqn:E; [apply Z.ltb_lt in E; lia|].
  simpl. by rewrite Hk.
Qed.

Lemma step_timeout now k tm s :
  clock s <= now ->
  timeouts s !! k = Some tm ->
  step now (TimeoutFired k) s =
  if timeout_due tm now
  then Some (exec (timeoutCallback (t_action tm))
                  (with_timeouts (delete k (timeouts s)) (with_clock now s)))
  else None.
Proof.
  intros Hclk Hk. unfold step.
  destruct (now <? clock s) eqn:E; [apply Z.ltb_lt in E; lia|].
  simpl. by rewrite Hk.
Qed.

(** The pending one-shot timers after an event. *)
Lemma step_timeouts now e s s' :
  step now e s = Some s' ->
  match e with
  | TimeoutFired k => timeouts s' = delete k (timeouts s)
  | ContentSettled k (Fulfilled _) =>
      exists fr, awaiting s !! k = Some fr /\
        timeouts s' = if decide (sus_type fr = Good)
                      then timeouts s ++ [mkTimeout now 1000 ResetStatus]
                      else timeouts s
  | _ => timeouts s' = timeouts s
  end.
Proof.
  intros H. step_inv H; unfold exec; callback_eqs; simpl; eauto.
  - destruct (intervalCallback_cases (i_scope i) rnd
                (with_interval (Some (mkInterval now (i_period i) (i_scope i)))
                               (with_clock now s)))
      as [-> | [[x ->] | (x & _ & ->)]]; callback_eqs; done.
  - by destruct (t_action t); callback_eqs.
  - destruct o; callback_eqs; simpl; eauto.
Qed.

Lemma elem_of_delete_or {A} (x : A) (j : nat) (l : list A) :
  x ∈ l -> x ∈ delete j l \/ l !! j = Some x.
Proof.
  intros [i Hi]%list_elem_of_lookup.
  destruct (decide (i = j)) as [->|Hne]; [by right|left].
  apply list_elem_of_lookup.
  destruct (decide (i < j)%nat).
  - exists i. by rewrite list_lookup_delete_lt.
  - exists (pred i). rewrite list_lookup_delete_ge by lia.
    by replace (S (pred i)) with i by lia.
Qed.

(** The status after an event whose callback does not call
    [setSignalStatus]. *)
Lemma step_status now e s s' :
  step now e s = Some s' ->
  sets_status e s = false ->
  signalStatus s' = signalStatus s.
Proof.
  intros H. step_inv H; unfold exec; callback_eqs; simpl; try done.
  - simpl in *.
    match goal with Hk : timeouts s !! k = Some _ |- _ => rewrite Hk end.
    by destruct t as [? ? []]; callback_eqs.
  - by destruct o; callback_eqs.
Qed.

(** A camera that was never requested stays so. *)
Lemma step_camera_not_requested now e s s' :
  step now e s = Some s' ->
  camera s = NotRequested -> camera s' = NotRequested.
Proof.
  intros H Hcam. step_inv H; unfold exec; callback_eqs; simpl in *;
    try congruence.
  - destruct (intervalCallback_cases (i_scope i) rnd
                (with_interval (Some (mkInterval now (i_period i) (i_scope i)))
                               (with_clock now s)))
      as [-> | [[x ->] | (x & _ & ->)]]; callback_eqs; done.
  - by destruct (t_action t); callback_eqs.
  - by destruct o; callback_eqs.
Qed.

Lemma step_interval_fired now rnd s s' :
  step now (IntervalFired rnd) s = Some s' ->
  exists iv, interval s = Some iv /\ interval_due iv now = true /\
             interval s' = Some (mkInterval now (i_period iv) (i_scope iv)).
Proof.
  intros H. step_inv H. simpl in *. eexists; split; [done|split; [done|]].
  unfold exec.
  destruct (intervalCallback_cases (i_scope i) rnd
              (with_interval (Some (mkInterval now (i_period i) (i_scope i)))
                             (with_clock now s)))
    as [-> | [[x ->] | (x & _ & ->)]]; callback_eqs; done.
Qed.

(** ** Sessions: what holds in every state a run from [mount] reaches *)

Lemma mount_eq t0 cam r0 :
  mount t0 cam r0 =
  mkState Good [] false
          (Some (mkInterval t0 (intervalDelay r0) (mkScope false)))
          [mkTimeout t0 1500 InitialMessage] [] []
          (if cam then Pending else NotRequested) [] t0.
Proof. by destruct cam. Qed.

Lemma run_app tr1 tr2 s :
  run (tr1 ++ tr2) s = run tr1 s ≫= run tr2.
Proof.
  revert s. induction tr1 as [|[now e] tr1 IH]; intros s; simpl; [done|].
  destruct (step now e s); simpl; [apply IH | done].
Qed.

Lemma run_interval tr s s' iv' :
  run tr s = Some s' ->
  interval s' = Some iv' ->
  exists iv, interval s = Some iv /\
             i_period iv' = i_period iv /\ i_scope iv' = i_scope iv.
Proof.
  revert s. induction tr as [|[now e] tr IH]; intros s; simpl.
  - intros [= ->] ?. eauto.
  - destruct (step now e s) as [s1|] eqn:Hstep; [|done].
    intros Hrun Hiv. destruct (IH _ Hrun Hiv) as (iv1 & Hiv1 & Hp & Hs).
    destruct (step_interval _ _ _ _ _ Hstep Hiv1) as (iv & ? & Hp' & Hs').
    exists iv. split; [done|]. split; congruence.
Qed.

(** Without [navigator.mediaDevices.getUserMedia] the camera is never
    requested, and the [.catch] callback never runs. *)
Lemma session_without_getUserMedia t0 r0 tr s :
  run tr (mount t0 false r0) = Some s ->
  camera s = NotRequested /\
  forall now err, step now (CameraDenied err) s = None.
Proof.
  intros Hrun.
  assert (Hcam : camera s = NotRequested).
  { assert (H0 : camera (mount t0 false r0) = NotRequested) by done.
    revert Hrun H0. generalize (mount t0 false r0).
    induction tr as [|[now e] tr IH]; intros s0; simpl.
    - by intros [= ->].
    - destruct (step now e s0) as [s1|] eqn:Hstep; [|done].
      intros Hrun H0. apply (IH _ Hrun). by eapply step_camera_not_requested. }
  split; [done|]. intros now err. unfold step.
  destruct (now <? clock s); [done|]. simpl. by rewrite Hcam.
Qed.

(** The recurring timer of a session is the one the mount effect made:
    the delay drawn then, and a callback that closes over the first
    render, in which [isLoading] is [false]. *)
Lemma session_interval t0 cam r0 tr s iv :
  run tr (mount t0 cam r0) = Some s ->
  interval s = Some iv ->
  i_period iv = intervalDelay r0 /\ i_scope iv = mkScope false.
Proof.
  intros Hrun Hiv.
  destruct (run_interval _ _ _ _ Hrun Hiv) as (iv0 & Hiv0 & -> & ->).
  rewrite mount_eq in Hiv0. simpl in Hiv0. by injection Hiv0 as <-.
Qed.

(** ** Double arithmetic: rounding never crosses a double *)

(** Rounding to an integer. *)

Lemma round_half_even_bounds x :
  Qfloor x <= round_half_even x <= Qfloor x + 1.
Proof.
  unfold round_half_even.
  destruct (Qcompare _ _); [destruct (Z.even _)| |]; lia.
Qed.

Lemma round_half_even_ge x m :
  (inject_Z m <= x)%Q -> m <= round_half_even x.
Proof.
  intros H. apply Qfloor_resp_le in H. rewrite Qfloor_Z in H.
  pose proof (round_half_even_bounds x). lia.
Qed.

Lemma round_half_even_lt_half x k :
  (x < inject_Z k + (1 # 2))%Q -> round_half_even x <= k.
Proof.
  intros H.
  assert (Hf : Qfloor x <= k).
  { assert (Hx : (x <= inject_Z (k + 1))%Q).
    { apply Qlt_le_weak. eapply Qlt_le_trans; [exact H|].
      rewrite inject_Z_plus. apply Qplus_le_r. discriminate. }
    destruct (Z.le_gt_cases (Qfloor x) k) as [|Hgt]; [done|].
    exfalso.
    assert (Hk1 : (inject_Z (k + 1) <= x)%Q).
    { eapply Qle_trans; [|apply Qfloor_le]. rewrite <- Zle_Qle. lia. }
    apply (Qlt_irrefl x). eapply Qlt_le_trans; [exact H|].
    eapply Qle_trans; [|exact Hk1]. rewrite inject_Z_plus.
    apply Qplus_le_r. discriminate. }
  destruct (Z.eq_dec (Qfloor x) k) as [Heq|Hne].
  - unfold round_half_even. rewrite Heq.
    assert (Hlt : (x - inject_Z k < 1 # 2)%Q).
    { apply (Qplus_lt_l _ _ (inject_Z k)). ring_simplify.
      eapply Qlt_le_trans; [exact H|]. rewrite Qplus_comm. apply Qle_refl. }
    pose proof (proj1 (Qlt_alt _ _) Hlt) as Hc. rewrite Hc. lia.
  - pose proof (round_half_even_bounds x). lia.
Qed.

Lemma round_half_even_le x m :
  (x <= inject_Z m)%Q -> round_half_even x <= m.
Proof.
  intros H. apply round_half_even_lt_half.
  eapply Qle_lt_trans; [exact H|].
  rewrite <- (Qplus_0_r (inject_Z m)) at 1. apply Qplus_lt_r. reflexivity.
Qed.

(** Powers of two. *)

Lemma pow2_pos z : (0 < pow2 z)%Q.
Proof. apply Qpower_0_lt. reflexivity. Qed.

Lemma pow2_add a b : (pow2 (a + b) == pow2 a * pow2 b)%Q.
Proof. apply Qpower_plus. discriminate. Qed.

Lemma pow2_le a b : a <= b -> (pow2 a <= pow2 b)%Q.
Proof. intros H. apply Qpower_le_compat_l; [done|discriminate]. Qed.

Lemma pow2_lt a b : a < b -> (pow2 a < pow2 b)%Q.
Proof. intros H. apply Qpower_lt_compat_l; [done|reflexivity]. Qed.

Lemma pow2_lt_inv a b : (pow2 a < pow2 b)%Q -> a < b.
Proof. intros H. eapply Qpower_lt_compat_l_inv; [exact H|reflexivity]. Qed.

Lemma pow2_Z z : 0 <= z -> (pow2 z == inject_Z (2 ^ z))%Q.
Proof. intros H. unfold pow2. by rewrite (Zpower_Qpower 2 z H). Qed.

Lemma pow2_frac p q :
  0 <= p -> 0 <= q -> (pow2 (p - q) == Qmake (2 ^ p) (Z.to_pos (2 ^ q)))%Q.
Proof.
  intros Hp Hq. replace (p - q) with (p + - q) by lia.
  rewrite pow2_add. unfold pow2 at 2. rewrite Qpower_opp.
  fold (pow2 q). rewrite !pow2_Z by done.
  rewrite (Qmake_Qdiv (2 ^ p)). rewrite Z2Pos.id by (apply Z.pow_pos_nonneg; lia).
  reflexivity.
Qed.

(** The binade of a positive rational. *)

Lemma ilog2_spec x :
  (0 < x)%Q -> (pow2 (ilog2 x) <= x)%Q /\ (x < pow2 (ilog2 x + 1))%Q.
Proof.
  intros Hx. destruct x as [n d]. unfold ilog2. cbn [Qnum Qden].
  assert (Hn : 0 < n) by (unfold Qlt in Hx; simpl in Hx; lia).
  pose proof (Z.log2_spec n Hn) as [Ha1 Ha2].
  pose proof (Z.log2_spec (Z.pos d) (Pos2Z.is_pos d)) as [Hb1 Hb2].
  pose proof (Z.log2_nonneg n) as Ha0.
  pose proof (Z.log2_nonneg (Z.pos d)) as Hb0.
  set (a := Z.log2 n) in *. set (b := Z.log2 (Z.pos d)) in *.
  assert (Hpa : 0 < 2 ^ a) by (apply Z.pow_pos_nonneg; lia).
  assert (Hpb : 0 < 2 ^ b) by (apply Z.pow_pos_nonneg; lia).
  assert (Hup : (n # d < pow2 (a - b + 1))%Q).
  { replace (a - b + 1) with (Z.succ a - b) by lia.
    rewrite pow2_frac by lia. unfold Qlt. cbn [Qnum Qden].
    rewrite Z2Pos.id by done. nia. }
  assert (Hlow : (pow2 (a - b - 1) <= n # d)%Q).
  { replace (a - b - 1) with (a - Z.succ b) by lia.
    rewrite pow2_frac by lia. unfold Qle. cbn [Qnum Qden].
    rewrite Z2Pos.id by (apply Z.pow_pos_nonneg; lia). nia. }
  destruct (Qle_bool (pow2 (a - b)) (n # d)) eqn:E.
  - apply Qle_bool_iff in E. done.
  - split; [done|]. replace (a - b - 1 + 1) with (a - b) by lia.
    apply Qnot_le_lt. intros Hle. apply Qle_bool_iff in Hle. congruence.
Qed.

Lemma ilog2_unique x e :
  (pow2 e <= x)%Q -> (x < pow2 (e + 1))%Q -> ilog2 x = e.
Proof.
  intros H1 H2.
  assert (Hx : (0 < x)%Q) by (eapply Qlt_le_trans; [apply (pow2_pos e)|done]).
  destruct (ilog2_spec x Hx) as [H3 H4].
  assert (e < ilog2 x + 1).
  { apply pow2_lt_inv. eapply Qle_lt_trans; done. }
  assert (ilog2 x < e + 1).
  { apply pow2_lt_inv. eapply Qle_lt_trans; done. }
  lia.
Qed.

(** Rounding to a double. *)

Lemma Qabs_nonneg_eq x : (0 <= x)%Q -> Qabs x = x.
Proof.
  destruct x as [n d]. unfold Qle. simpl. intros H.
  f_equal. apply Z.abs_eq. lia.
Qed.

Lemma round_double_zero x : (x == 0)%Q -> round_double x = 0%Q.
Proof.
  intros H. unfold round_double.
  by rewrite (proj2 (Qeq_bool_iff x 0) H).
Qed.

Lemma round_double_pos x :
  (0 < x)%Q ->
  (round_double x ==
   inject_Z (round_half_even (x / quantum x)) * quantum x)%Q /\
  quantum x = pow2 (Z.max (ilog2 x) (-1022) - 52).
Proof.
  intros Hx. split.
  - unfold round_double. destruct (Qeq_bool x 0) eqn:E.
    + apply Qeq_bool_iff in E. rewrite E in Hx. discriminate.
    + apply Qred_correct.
  - unfold quantum. rewrite Qabs_nonneg_eq; [done|]. by apply Qlt_le_weak.
Qed.

(** A value that is [m * 2^e] with [m] below [2^53] lies on the grid of
    every [x] at or above it, or else below the binade of [x]. *)
Lemma grid_or_below x m e :
  (0 < x)%Q -> 0 <= m < 2 ^ 53 -> -1074 <= e ->
  (exists k, (inject_Z m * pow2 e == inject_Z k * quantum x)%Q) \/
  ((inject_Z m * pow2 e < pow2 (ilog2 x))%Q /\ -1022 <= ilog2 x /\
   quantum x = pow2 (ilog2 x - 52)).
Proof.
  intros Hx Hm He. destruct (round_double_pos x Hx) as [_ Hq]. rewrite Hq.
  set (E := Z.max (ilog2 x) (-1022)).
  destruct (Z.le_gt_cases (E - 52) e) as [Hge|Hlt].
  - left. exists (m * 2 ^ (e - (E - 52))).
    replace e with ((e - (E - 52)) + (E - 52)) at 1 by lia.
    rewrite pow2_add, (pow2_Z (e - (E - 52))) by lia.
    rewrite inject_Z_mult. ring.
  - right. assert (HE : E = ilog2 x) by lia. rewrite HE in *.
    split; [|split; [lia|done]].
    eapply Qlt_le_trans; [|apply (pow2_le (53 + e)); lia].
    rewrite pow2_add, (pow2_Z 53) by lia.
    apply Qmult_lt_r; [apply pow2_pos|]. rewrite <- Zlt_Qlt. lia.
Qed.

Lemma round_double_le_grid x m e :
  (0 <= x)%Q -> (x <= inject_Z m * pow2 e)%Q ->
  0 <= m < 2 ^ 53 -> -1074 <= e ->
  (round_double x <= inject_Z m * pow2 e)%Q.
Proof.
  intros H0 HB Hm He.
  destruct (Qlt_le_dec 0 x) as [Hx|Hx0].
  - destruct (round_double_pos x Hx) as [-> Hq].
    destruct (grid_or_below x m e Hx Hm He) as [[k Hk] | (Hlt & _ & _)].
    + rewrite Hk in *. apply Qmult_le_compat_r.
      * rewrite <- Zle_Qle. apply round_half_even_le.
        apply Qle_shift_div_r; [rewrite Hq; apply pow2_pos|done].
      * rewrite Hq. apply Qlt_le_weak, pow2_pos.
    + exfalso. destruct (ilog2_spec x Hx) as [Hlo _].
      apply (Qlt_irrefl x). eapply Qle_lt_trans; [exact HB|].
      eapply Qlt_le_trans; done.
  - rewrite round_double_zero; [by eapply Qle_trans|]. by apply Qle_antisym.
Qed.

Lemma round_double_ge_grid x m e :
  (inject_Z m * pow2 e <= x)%Q ->
  0 <= m < 2 ^ 53 -> -1074 <= e ->
  (inject_Z m * pow2 e <= round_double x)%Q.
Proof.
  intros HB Hm He.
  assert (HB0 : (0 <= inject_Z m * pow2 e)%Q).
  { apply Qmult_le_0_compat; [|apply Qlt_le_weak, pow2_pos].
    change 0%Q with (inject_Z 0). rewrite <- Zle_Qle. lia. }
  destruct (Qlt_le_dec 0 x) as [Hx|Hx0].
  - destruct (round_double_pos x Hx) as [-> Hq].
    destruct (grid_or_below x m e Hx Hm He) as [[k Hk] | (Hlt & Hnorm & Hq')].
    + rewrite Hk in *. apply Qmult_le_compat_r.
      * rewrite <- Zle_Qle. apply round_half_even_ge.
        apply Qle_shift_div_l; [rewrite Hq; apply pow2_pos|done].
      * rewrite Hq. apply Qlt_le_weak, pow2_pos.
    + destruct (ilog2_spec x Hx) as [Hlo _].
      apply Qlt_le_weak. eapply Qlt_le_trans; [exact Hlt|].
      rewrite Hq'.
      assert (H52 : (pow2 (ilog2 x) == inject_Z (2 ^ 52) * pow2 (ilog2 x - 52))%Q).
      { replace (ilog2 x) with (52 + (ilog2 x - 52)) at 1 by lia.
        rewrite pow2_add, (pow2_Z 52) by lia. reflexivity. }
      rewrite H52. apply Qmult_le_compat_r; [|apply Qlt_le_weak, pow2_pos].
      rewrite <- Zle_Qle. apply round_half_even_ge.
      apply Qle_shift_div_l; [apply pow2_pos|]. by rewrite <- H52.
  - rewrite round_double_zero; [by eapply Qle_trans|].
    apply Qle_antisym; [done|by eapply Qle_trans].
Qed.

Lemma round_double_le_Z x n :
  (0 <= x)%Q -> (x <= inject_Z n)%Q -> 0 <= n < 2 ^ 53 ->
  (round_double x <= inject_Z n)%Q.
Proof.
  intros H0 H Hn.
  assert (Hn' : (inject_Z n == inject_Z n * pow2 0)%Q) by (unfold pow2; simpl; ring).
  rewrite Hn' in *. by apply round_double_le_grid.
Qed.

Lemma round_double_ge_Z x n :
  (inject_Z n <= x)%Q -> 0 <= n < 2 ^ 53 ->
  (inject_Z n <= round_double x)%Q.
Proof.
  intros H Hn.
  assert (Hn' : (inject_Z n == inject_Z n * pow2 0)%Q) by (unfold pow2; simpl; ring).
  rewrite Hn' in *. by apply round_double_ge_grid.
Qed.

Lemma timer_ms_floor x :
  (0 <= x)%Q -> (x < inject_Z (2 ^ 31))%Q -> timer_ms x = Qfloor x.
Proof.
  intros H0 H1.
  assert (Hf0 : 0 <= Qfloor x).
  { pose proof (Qfloor_resp_le _ _ H0) as Hf. by change (Qfloor 0) with 0 in Hf. }
  assert (Hf1 : Qfloor x < 2 ^ 31).
  { rewrite Zlt_Qlt. eapply Qle_lt_trans; [apply Qfloor_le|done]. }
  unfold timer_ms, to_long. destruct x as [n d]. cbn [Qnum Qden Qfloor] in *.
  rewrite Z.quot_div_nonneg; [|unfold Qle in H0; simpl in H0; lia|lia].
  rewrite Z.mod_small by lia.
  destruct (_ <? 2 ^ 31) eqn:E; [lia|]. apply Z.ltb_ge in E. lia.
Qed.

Lemma double_below_one r :
  is_double r = true -> (0 <= r)%Q -> (r < 1)%Q ->
  (r <= 1 - (1 # 2 ^ 53))%Q.
Proof.
  intros Hd H0 H1. apply Qeq_bool_iff in Hd.
  destruct (Qlt_le_dec r (1 # 2)) as [Hsmall|Hbig].
  - apply Qlt_le_weak. eapply Qlt_le_trans; [exact Hsmall|]. discriminate.
  - assert (Hr : (0 < r)%Q) by (eapply Qlt_le_trans; [|exact Hbig]; reflexivity).
    destruct (round_double_pos r Hr) as [Heq Hq].
    assert (He : ilog2 r = -1) by (apply ilog2_unique; done).
    rewrite He in Hq. change (Z.max (-1) (-1022) - 52) with (-53) in Hq.
    rewrite Hq in Heq. rewrite Hd in Heq.
    set (k := round_half_even (r / pow2 (-53))) in *.
    assert (Hp : (pow2 (-53) == 1 # 2 ^ 53)%Q) by (vm_compute; reflexivity).
    rewrite Hp in Heq.
    assert (Hk : k < 2 ^ 53).
    { rewrite Heq in H1. unfold Qlt in H1. simpl in H1. lia. }
    rewrite Heq. unfold Qle, Qminus, Qplus, Qopp, Qmult. simpl. lia.
Qed.

Lemma random_index_in_range r :
  is_double r = true -> (0 <= r)%Q -> (r < 1)%Q ->
  0 <= Qfloor (fmul r (inject_Z 6)) < 6.
Proof.
  intros Hd H0 H1. unfold fmul. set (x := (r * inject_Z 6)%Q).
  assert (Hx0 : (0 <= x)%Q).
  { unfold x. apply Qmult_le_0_compat; [done|discriminate]. }
  assert (Hx1 : (x <= (1 - (1 # 2 ^ 53)) * inject_Z 6)%Q).
  { unfold x. apply Qmult_le_compat_r; [|discriminate].
    by apply double_below_one. }
  split.
  - change 0 with (Qfloor (inject_Z 0)). apply Qfloor_resp_le.
    apply round_double_ge_Z; [done|lia].
  - rewrite Zlt_Qlt. eapply Qle_lt_trans; [apply Qfloor_le|].
    destruct (Qlt_le_dec x (inject_Z 4)) as [Hlow|Hhigh].
    + apply Qle_lt_trans with (inject_Z 4); [|reflexivity].
      apply round_double_le_Z; [done|by apply Qlt_le_weak|lia].
    + assert (Hx : (0 < x)%Q) by (eapply Qlt_le_trans; [|exact Hhigh]; reflexivity).
      destruct (round_double_pos x Hx) as [-> Hq].
      assert (He : ilog2 x = 2).
      { apply ilog2_unique; [exact Hhigh|].
        eapply Qle_lt_trans; [exact Hx1|]. vm_compute. reflexivity. }
      rewrite He in Hq. change (Z.max 2 (-1022) - 52) with (-50) in Hq.
      rewrite Hq.
      apply Qle_lt_trans with (inject_Z (6 * 2 ^ 50 - 1) * pow2 (-50))%Q;
        [|vm_compute; reflexivity].
      apply Qmult_le_compat_r; [|apply Qlt_le_weak, pow2_pos].
      rewrite <- Zle_Qle. apply round_half_even_lt_half.
      apply Qlt_shift_div_r; [apply pow2_pos|].
      eapply Qle_lt_trans; [exact Hx1|]. vm_compute. reflexivity.
Qed.

Lemma intervalDelay_bounds r :
  (0 <= r)%Q -> (r < 1)%Q ->
  (inject_Z 8000 <= intervalDelay r)%Q /\ (intervalDelay r <= inject_Z 15000)%Q.
Proof.
  intros H0 H1. unfold intervalDelay, fadd, fmul.
  assert (Hc : (fsub (inject_Z 15000) (inject_Z 8000) == inject_Z 7000)%Q)
    by (vm_compute; reflexivity).
  set (c := fsub (inject_Z 15000) (inject_Z 8000)) in *.
  assert (Hp0 : (0 <= r * c)%Q).
  { rewrite Hc. apply Qmult_le_0_compat; [done|discriminate]. }
  assert (Hp1 : (r * c <= inject_Z 7000)%Q).
  { rewrite Hc. rewrite <- (Qmult_1_l (inject_Z 7000)) at 2.
    apply Qmult_le_compat_r; [by apply Qlt_le_weak|discriminate]. }
  set (p := round_double (r * c)).
  assert (Hq0 : (0 <= p)%Q).
  { change 0%Q with (inject_Z 0). apply round_double_ge_Z; [done|lia]. }
  assert (Hq1 : (p <= inject_Z 7000)%Q).
  { apply round_double_le_Z; [done|done|lia]. }
  split.
  - apply round_double_ge_Z; [|lia].
    rewrite <- (Qplus_0_l (inject_Z 8000)) at 1. by apply Qplus_le_l.
  - apply round_double_le_Z; [|..|lia].
    + apply Qle_trans with (inject_Z 8000); [discriminate|].
      rewrite <- (Qplus_0_l (inject_Z 8000)) at 1. by apply Qplus_le_l.
    + change (inject_Z 15000) with (inject_Z 7000 + inject_Z 8000)%Q.
      by apply Qplus_le_l.
Qed.

(** For a draw that [Math.random()] can return, a double in [0, 1), the
    index [Math.floor(rnd * 6)] is inside the table. *)
Lemma random_issue_defined rnd :
  is_double rnd = true -> (0 <= rnd)%Q -> (rnd < 1)%Q ->
  exists i, array_get possibleIssues
              (Qfloor (fmul rnd (inject_Z (Z.of_nat (length possibleIssues))))) = Some i.
Proof.
  intros Hd H0 H1. unfold array_get.
  change (inject_Z (Z.of_nat (length possibleIssues))) with (inject_Z 6).
  pose proof (random_index_in_range rnd Hd H0 H1) as [Hlo Hhi].
  destruct (_ <? 0) eqn:E; [apply Z.ltb_lt in E; lia|].
  apply lookup_lt_is_Some. change (length possibleIssues) with 6%nat. lia.
Qed.

(** Ids never exceed the clock. *)
Lemma step_ids_bounded now e s s' :
  step now e s = Some s' ->
  Forall (fun a => id a <= clock s) (alerts s) ->
  Forall (fun a => id a <= clock s') (alerts s').
Proof.
  intros Hstep Hb.
  destruct (step_clock _ _ _ _ Hstep) as [Hle ->].
  assert (Hb' : Forall (fun a => id a <= now) (alerts s)).
  { eapply Forall_impl; [done|]. simpl. lia. }
  pose proof (step_alerts _ _ _ _ Hstep) as Ha.
  destruct (writes_log e).
  - destruct Ha as (ts & ty & msg & ->). apply Forall_app. split; [done|].
    by repeat constructor.
  - by rewrite Ha.
Qed.

Lemma ids_sorted_snoc l b :
  ids_sorted l -> Forall (fun a => id a <= id b) l -> ids_sorted (l ++ [b]).
Proof.
  intros Hs Hb i j a c Hij Hi Hj.
  assert (Hjlen : (j < length (l ++ [b]))%nat) by by eapply lookup_lt_Some.
  rewrite length_app in Hjlen. simpl in Hjlen.
  rewrite lookup_app_l in Hi by lia.
  destruct (decide (j < length l)%nat).
  - rewrite lookup_app_l in Hj by lia. eauto.
  - rewrite lookup_app_r in Hj by lia.
    replace (j - length l)%nat with 0%nat in Hj by lia. injection Hj as <-.
    rewrite Forall_forall in Hb. apply Hb. by eapply list_elem_of_lookup_2.
Qed.

Lemma step_ids_sorted now e s s' :
  step now e s = Some s' ->
  Forall (fun a => id a <= clock s) (alerts s) ->
  ids_sorted (alerts s) -> ids_sorted (alerts s').
Proof.
  intros Hstep Hb Hs.
  destruct (step_clock _ _ _ _ Hstep) as [Hle _].
  pose proof (step_alerts _ _ _ _ Hstep) as Ha.
  destruct (writes_log e).
  - destruct Ha as (ts & ty & msg & ->). apply ids_sorted_snoc; [done|].
    eapply Forall_impl; [done|]. simpl. lia.
  - by rewrite Ha.
Qed.

Lemma run_ids tr s s' :
  run tr s = Some s' ->
  Forall (fun a => id a <= clock s) (alerts s) -> ids_sorted (alerts s) ->
  Forall (fun a => id a <= clock s') (alerts s') /\ ids_sorted (alerts s').
Proof.
  revert s. induction tr as [|[now e] tr IH]; intros s; simpl.
  - by intros [= ->].
  - destruct (step now e s) as [s1|] eqn:Hstep; [|done].
    intros Hrun Hb Hs. apply (IH _ Hrun).
    + by eapply step_ids_bounded.
    + by eapply step_ids_sorted.
Qed.

(** A pending one-shot timer stays pending through every event except
    its own firing: nothing in the component cancels a [setTimeout]. *)
Lemma pending_timeout_stays now e s s' tm :
  step now e s = Some s' ->
  tm ∈ timeouts s ->
  tm ∈ timeouts s' \/ exists j, e = TimeoutFired j /\ timeouts s !! j = Some tm.
Proof.
  intros Hstep Hin. pose proof (step_timeouts _ _ _ _ Hstep) as Ht.
  destruct e as [| | |j|k [text|reason]|]; try (left; by rewrite Ht).
  - rewrite Ht. destruct (elem_of_delete_or tm j _ Hin); eauto.
  - destruct Ht as (fr & _ & ->). left.
    destruct (decide (sus_type fr = Good)); [|done].
    apply elem_of_app. by left.
Qed.

(** In a session the guard of the recurring timer never skips: a firing
    enters [generateAlert] whatever [isLoading] is at that moment. *)
Lemma recurring_timer_never_skips t0 cam r0 tr s now rnd s' :
  run tr (mount t0 cam r0) = Some s ->
  is_double rnd = true -> (0 <= rnd)%Q -> (rnd < 1)%Q ->
  step now (IntervalFired rnd) s = Some s' ->
  exists i, i ∈ possibleIssues /\
    awaiting s' = awaiting s ++ [mkSuspended (issue_type i)] /\
    requests s' = requests s ++ [mkRequest "gemini-2.5-flash" (prompt_of (issue i))].
Proof.
  intros Hrun Hd H0 H1 Hstep. step_inv Hstep.
  match goal with Hiv : interval _ = Some _ |- _ =>
    destruct (session_interval _ _ _ _ _ _ Hrun Hiv) as [_ ->] end.
  destruct (random_issue_defined rnd Hd H0 H1) as [chosen Hi].
  unfold exec, intervalCallback. cbn [scope_isLoading]. rewrite Hi.
  callback_eqs. simpl.
  exists chosen. split; [|done].
  unfold array_get in Hi. destruct (_ <? 0); [done|].
  by eapply list_elem_of_lookup_2.
Qed.

(** ** The claims *)

(** C2 (as amended): the delay of the recurring timer is computed once,
    by the mount effect, as [Math.random() * (15000 - 8000) + 8000] in
    double arithmetic for one draw in [0, 1): a value from 8000 to 15000,
    both included, of which the timer counts the whole milliseconds.  In
    every state of the session the timer still has that delay: a firing is
    not delivered before that many milliseconds have passed since the
    timer was last armed, it can be delivered from then on, and it re-arms
    the timer with the same delay.  The timer is a fixed-period timer. *)
Theorem recurring_timer_delay_fixed_at_mount t0 cam r0 tr s iv :
  (0 <= r0)%Q -> (r0 < 1)%Q ->
  run tr (mount t0 cam r0) = Some s ->
  interval s = Some iv ->
  i_period iv = intervalDelay r0 /\
  (inject_Z 8000 <= i_period iv)%Q /\ (i_period iv <= inject_Z 15000)%Q /\
  8000 <= timer_ms (i_period iv) <= 15000 /\
  (forall now rnd,
     now < i_armed iv + timer_ms (i_period iv) ->
     step now (IntervalFired rnd) s = None) /\
  (forall now rnd,
     clock s <= now -> i_armed iv + timer_ms (i_period iv) <= now ->
     exists s', step now (IntervalFired rnd) s = Some s') /\
  (forall now rnd s',
     step now (IntervalFired rnd) s = Some s' ->
     interval s' = Some (mkInterval now (intervalDelay r0) (i_scope iv))).
Proof.
  intros H0 H1 Hrun Hiv.
  destruct (session_interval _ _ _ _ _ _ Hrun Hiv) as [Hp Hs].
  destruct (intervalDelay_bounds r0 H0 H1) as [Hlo Hhi].
  assert (Hms : timer_ms (intervalDelay r0) = Qfloor (intervalDelay r0)).
  { apply timer_ms_floor.
    - eapply Qle_trans; [|exact Hlo]. discriminate.
    - eapply Qle_lt_trans; [exact Hhi|]. reflexivity. }
  assert (Hfl : 8000 <= Qfloor (intervalDelay r0) <= 15000).
  { split.
    - rewrite <- (Qfloor_Z 8000). by apply Qfloor_resp_le.
    - rewrite <- (Qfloor_Z 15000). by apply Qfloor_resp_le. }
  rewrite Hp. split; [done|]. split; [done|]. split; [done|].
  split; [lia|]. split; [|split].
  - intros now rnd Hearly. unfold step.
    destruct (now <? clock s); [done|]. simpl. rewrite Hiv.
    unfold interval_due. rewrite Hp.
    destruct (_ <=? now) eqn:E; [|done]. apply Z.leb_le in E. lia.
  - intros now rnd Hclk Hdue. unfold step.
    destruct (now <? clock s) eqn:E; [apply Z.ltb_lt in E; lia|].
    simpl. rewrite Hiv. unfold interval_due. rewrite Hp.
    destruct (_ <=? now) eqn:E'; [eauto|]. apply Z.leb_gt in E'. lia.
  - intros now rnd s' Hstep.
    destruct (step_interval_fired _ _ _ _ Hstep) as (iv1 & Hiv1 & _ & ->).
    rewrite Hiv in Hiv1. injection Hiv1 as <-. by rewrite Hp.
Qed.

(** C3: when the completion call of a firing fails, for whatever reason,
    the continuation of [generateAlert] sets the global status to Error,
    appends exactly one entry with severity Error and the text
    'Failed to get analysis from AI. Check API connection.' (the badge
    then reads CRITICAL), completes normally (the error goes no further),
    and makes no retry: no request is sent, no invocation is parked, no
    timer is armed. *)
Theorem failed_completion_is_logged_and_contained now k fr reason s :
  clock s <= now ->
  awaiting s !! k = Some fr ->
  exists s',
    step now (ContentSettled k (Rejected reason)) s = Some s' /\
    signalStatus s' = Error /\
    statusText (signalStatus s') = "CRITICAL"%string /\
    alerts s' = alerts s ++
      [mkAlert now (toLocaleTimeString now) Error
               "Failed to get analysis from AI. Check API connection."] /\
    (forall s0, snd (generateAlert_resume fr (Rejected reason) s0) = Normal tt) /\
    requests s' = requests s /\
    awaiting s' = delete k (awaiting s) /\
    timeouts s' = timeouts s /\
    interval s' = interval s /\
    isLoading s' = false.
Proof.
  intros Hclk Hk. rewrite (step_settled _ _ _ _ _ Hclk Hk).
  eexists; split; [done|]. unfold exec. rewrite resume_rejected_eq. simpl.
  by repeat split.
Qed.

(** C4: when the completion call of a firing succeeds, the continuation
    of [generateAlert] appends exactly one entry, whose severity is the
    one [generateAlert] was entered with (the selected issue's), whose id
    and timestamp are the clock reading at that moment, and whose message
    is the text the service returned. *)
Theorem successful_completion_appends_alert now k fr text s :
  clock s <= now ->
  awaiting s !! k = Some fr ->
  exists s',
    step now (ContentSettled k (Fulfilled text)) s = Some s' /\
    alerts s' = alerts s ++
      [mkAlert now (toLocaleTimeString now) (sus_type fr) text] /\
    (forall issue_text ty s0,
       awaiting (exec (generateAlert issue_text ty) s0) =
       awaiting s0 ++ [mkSuspended ty]).
Proof.
  intros Hclk Hk. rewrite (step_settled _ _ _ _ _ Hclk Hk).
  eexists; split; [done|]. unfold exec. rewrite resume_fulfilled_eq. simpl.
  split; [done|]. intros issue_text ty s0. by rewrite generateAlert_eq.
Qed.

(** C5: when [generateAlert] is entered with a severity other than Good,
    the global status is that severity as soon as the invocation is
    parked at its [await], with the request sent and nothing logged yet;
    and the status keeps its value through every event whose callback
    does not call [setSignalStatus], the successful completion of this
    request among them. *)
Theorem status_set_on_entry issue_text ty s :
  ty <> Good ->
  let s1 := exec (generateAlert issue_text ty) s in
  signalStatus s1 = ty /\
  awaiting s1 = awaiting s ++ [mkSuspended ty] /\
  alerts s1 = alerts s /\
  (forall now e s2 s3,
     step now e s2 = Some s3 -> sets_status e s2 = false ->
     signalStatus s3 = signalStatus s2) /\
  (forall k text s2, sets_status (ContentSettled k (Fulfilled text)) s2 = false).
Proof.
  intros Hty. unfold exec. rewrite generateAlert_eq. simpl.
  repeat split; try done.
  - by destruct (decide (ty <> Good)).
  - intros now e s2 s3. apply step_status.
Qed.

(** C6: when the completion call of a firing entered with severity Good
    succeeds at clock reading [now], a timer that resets the status is
    armed with delay 1000.  It is not delivered before [now + 1000]; from
    then on it can be, and its callback sets the global status to Good.
    No event other than its own firing removes it. *)
Theorem good_completion_schedules_reset now k fr text s :
  clock s <= now ->
  awaiting s !! k = Some fr ->
  sus_type fr = Good ->
  exists s',
    step now (ContentSettled k (Fulfilled text)) s = Some s' /\
    timeouts s' = timeouts s ++ [mkTimeout now 1000 ResetStatus] /\
    (forall s2 j t,
       timeouts s2 !! j = Some (mkTimeout now 1000 ResetStatus) ->
       clock s2 <= t ->
       if now + 1000 <=? t
       then exists s3, step t (TimeoutFired j) s2 = Some s3 /\ signalStatus s3 = Good
       else step t (TimeoutFired j) s2 = None) /\
    (forall t e s2 s3,
       step t e s2 = Some s3 ->
       mkTimeout now 1000 ResetStatus ∈ timeouts s2 ->
       mkTimeout now 1000 ResetStatus ∈ timeouts s3 \/
       exists j, e = TimeoutFired j /\
                 timeouts s2 !! j = Some (mkTimeout now 1000 ResetStatus)).
Proof.
  intros Hclk Hk Hgood. rewrite (step_settled _ _ _ _ _ Hclk Hk).
  eexists; split; [done|]. unfold exec. rewrite resume_fulfilled_eq. simpl.
  rewrite Hgood. repeat split.
  - intros s2 j t Hj Ht. rewrite (step_timeout _ _ _ _ Ht Hj).
    unfold timeout_due. simpl. destruct (now + 1000 <=? t); [|done].
    eexists; split; [done|]. done.
  - intros t e s2 s3. apply pending_timeout_stays.
Qed.

(** C7: the log is append-only.  Over any run, the log at the end is the
    log at the start followed by new entries, exactly one for each event
    that runs one of the three operations writing the log (the two
    continuations of [generateAlert], the camera's [.catch]) and none for
    any other event; every entry that was in the log is still there, at
    the same position and unchanged. *)
Theorem alerts_append_only tr s s' :
  run tr s = Some s' ->
  exists added,
    alerts s' = alerts s ++ added /\
    length added = log_writes tr /\
    (forall i a, alerts s !! i = Some a -> alerts s' !! i = Some a).
Proof.
  revert s. induction tr as [|[now e] tr IH]; intros s; simpl.
  - intros [= ->]. exists []. by rewrite app_nil_r.
  - destruct (step now e s) as [s1|] eqn:Hstep; [|done].
    intros Hrun. destruct (IH _ Hrun) as (added & Heq & Hlen & _).
    pose proof (step_alerts _ _ _ _ Hstep) as Ha.
    destruct (writes_log e).
    + destruct Ha as (ts & ty & msg & Ha).
      exists (mkAlert now ts ty msg :: added).
      rewrite Heq, Ha, <- app_assoc. simpl. repeat split; [by rewrite Hlen|].
      intros i a Hi. by apply lookup_app_l_Some.
    + exists added. rewrite Heq, Ha. repeat split; [done|].
      intros i a Hi. by apply lookup_app_l_Some.
Qed.

(** C8 (as amended): the id of an entry is the clock reading, in whole
    milliseconds, of the event that appends it.  In a session, whose clock
    does not run backwards, ids in log order never decrease, and an entry
    appended by a later event has an id at least as large as every
    earlier entry's, strictly larger when the clock has advanced since the
    previous event.  (Entries appended at the same clock reading have the
    same id.) *)
Theorem alert_ids_follow_the_clock t0 cam r0 tr s now e s' :
  run tr (mount t0 cam r0) = Some s ->
  step now e s = Some s' ->
  ids_sorted (alerts s') /\
  (alerts s' = alerts s \/
   exists b, alerts s' = alerts s ++ [b] /\ id b = now /\
     forall a, a ∈ alerts s -> id a <= id b /\ (clock s < now -> id a < id b)).
Proof.
  intros Hrun Hstep.
  assert (Hinv : Forall (fun a => id a <= clock s) (alerts s) /\ ids_sorted (alerts s)).
  { apply (run_ids _ _ _ Hrun); rewrite mount_eq; simpl; [constructor|].
    intros i j a b _ Hi. by rewrite lookup_nil in Hi. }
  destruct Hinv as [Hb Hs]. split; [by eapply step_ids_sorted|].
  destruct (step_clock _ _ _ _ Hstep) as [Hle _].
  pose proof (step_alerts _ _ _ _ Hstep) as Ha.
  destruct (writes_log e); [right|by left].
  destruct Ha as (ts & ty & msg & ->). eexists; split; [done|]. simpl.
  split; [done|]. intros a Hin. rewrite Forall_forall in Hb.
  specialize (Hb a Hin). simpl in Hb. lia.
Qed.

(** C9: when the camera request is rejected, the [.catch] callback
    appends exactly one entry, with severity Error and the text 'Webcam
    access denied or unavailable. Displaying placeholder background.', and
    leaves the global status (and the busy flag, the timers, the parked
    invocations) as they were; the promise does not settle a second
    time. *)
Theorem camera_failure_logged_status_unchanged now err s :
  clock s <= now ->
  camera s = Pending ->
  exists s',
    step now (CameraDenied err) s = Some s' /\
    alerts s' = alerts s ++
      [mkAlert now (toLocaleTimeString now) Error
         "Webcam access denied or unavailable. Displaying placeholder background."] /\
    signalStatus s' = signalStatus s /\
    isLoading s' = isLoading s /\
    timeouts s' = timeouts s /\
    interval s' = interval s /\
    awaiting s' = awaiting s /\
    (forall now' err', step now' (CameraDenied err') s' = None).
Proof.
  intros Hclk Hcam. unfold step at 1.
  destruct (now <? clock s) eqn:E; [apply Z.ltb_lt in E; lia|].
  simpl. rewrite Hcam. eexists; split; [done|].
  unfold exec. rewrite getUserMedia_catch_eq. simpl. repeat split.
  intros now' err'. unfold step. simpl. by destruct (now' <? now).
Qed.

(** C10: the one-shot timer armed by the mount effect with delay 1500
    calls [generateAlert] with the initialization text and severity Good
    whatever the busy flag is: from any state, its firing sends a request
    and parks an invocation.  [generateAlert] itself does so on every
    entry, without reading the busy flag; the only test of the flag is in
    the callback of the recurring timer, which does nothing when the
    [isLoading] it reads is [true]. *)
Theorem bootstrap_enters_unconditionally now k tm s :
  clock s <= now ->
  timeouts s !! k = Some tm ->
  t_action tm = InitialMessage ->
  t_armed tm + t_delay tm <= now ->
  exists s',
    step now (TimeoutFired k) s = Some s' /\
    s' = exec (generateAlert
                 "Monitoring initialized. Primary video and audio feeds are stable."
                 Good)
              (with_timeouts (delete k (timeouts s)) (with_clock now s)) /\
    awaiting s' = awaiting s ++ [mkSuspended Good] /\
    requests s' = requests s ++
      [mkRequest "gemini-2.5-flash"
         (prompt_of "Monitoring initialized. Primary video and audio feeds are stable.")] /\
    isLoading s' = true /\
    (forall t0 cam r0, timeouts (mount t0 cam r0) = [mkTimeout t0 1500 InitialMessage]) /\
    (forall issue_text ty s0,
       let s1 := exec (generateAlert issue_text ty) s0 in
       isLoading s1 = true /\
       awaiting s1 = awaiting s0 ++ [mkSuspended ty] /\
       requests s1 = requests s0 ++ [mkRequest "gemini-2.5-flash" (prompt_of issue_text)]) /\
    (forall rnd s0, intervalCallback (mkScope true) rnd s0 = (s0, Normal tt)).
Proof.
  intros Hclk Hk Hact Hdue. rewrite (step_timeout _ _ _ _ Hclk Hk).
  unfold timeout_due. destruct (_ <=? now) eqn:E; [|apply Z.leb_gt in E; lia].
  rewrite Hact. eexists; split; [done|]. split; [done|].
  unfold exec. rewrite timeoutCallback_eq, generateAlert_eq. simpl.
  repeat split; try (by rewrite generateAlert_eq).
  intros t0 cam r0. by rewrite mount_eq.
Qed.

(** ** Beyond the claims: more of what sessions keep *)

(** The state an event leaves, case by case. *)
Lemma step_cases now e s s' :
  step now e s = Some s' ->
  clock s <= now /\
  match e with
  | CameraGranted b =>
      camera s = Pending /\ s' = with_camera (Granted b) (with_clock now s)
  | CameraDenied err =>
      camera s = Pending /\
      s' = exec (getUserMedia_catch err) (with_camera Unavailable (with_clock now s))
  | IntervalFired rnd =>
      exists iv, interval s = Some iv /\ interval_due iv now = true /\
        let s0 := with_interval (Some (mkInterval now (i_period iv) (i_scope iv)))
                                (with_clock now s) in
        (s' = s0 \/
         exists i, i ∈ possibleIssues /\
                   s' = exec (generateAlert (issue i) (issue_type i)) s0)
  | TimeoutFired k =>
      exists tm, timeouts s !! k = Some tm /\ timeout_due tm now = true /\
        s' = exec (timeoutCallback (t_action tm))
                  (with_timeouts (delete k (timeouts s)) (with_clock now s))
  | ContentSettled k o =>
      exists fr, awaiting s !! k = Some fr /\
        s' = exec (generateAlert_resume fr o)
                  (with_awaiting (delete k (awaiting s)) (with_clock now s))
  | Unmount => s' = with_interval None (with_clock now s)
  end.
Proof.
  intros H. split; [by destruct (step_clock _ _ _ _ H)|].
  step_inv H; simpl in *; eauto.
  eexists; split; [done|]. split; [done|]. simpl. unfold exec.
  destruct (intervalCallback_cases (i_scope i) rnd
              (with_interval (Some (mkInterval now (i_period i) (i_scope i)))
                             (with_clock now s)))
    as [-> | [[x ->] | (x & Hx & ->)]]; eauto.
Qed.

Lemma count_app {A} (f : A -> bool) (l1 l2 : list A) :
  count f (l1 ++ l2) = (count f l1 + count f l2)%nat.
Proof. induction l1 as [|x l1 IH]; simpl; [done|]. rewrite IH. lia. Qed.

Lemma count_delete {A} (f : A -> bool) (l : list A) (k : nat) (x : A) :
  l !! k = Some x ->
  count f l = ((if f x then 1 else 0) + count f (delete k l))%nat.
Proof.
  revert k. induction l as [|y l IH]; intros [|k]; simpl; try done.
  - by intros [= ->].
  - intros Hk. rewrite (IH _ Hk). lia.
Qed.

(** The prompt of the bootstrap firing is not the prompt of any issue of
    the catalog. *)
Lemma catalog_prompt_not_bootstrap i :
  i ∈ possibleIssues ->
  is_bootstrap_request (mkRequest "gemini-2.5-flash" (prompt_of (issue i))) = false.
Proof.
  unfold possibleIssues. rewrite !elem_of_cons, elem_of_nil.
  intros [-> | [-> | [-> | [-> | [-> | [-> | []]]]]]]; vm_compute; reflexivity.
Qed.

Lemma run_invariant (P : State -> Prop) :
  (forall now e s s', step now e s = Some s' -> P s -> P s') ->
  forall tr s s', run tr s = Some s' -> P s -> P s'.
Proof.
  intros Hstep tr. induction tr as [|[now e] tr IH]; intros s s'; simpl.
  - by intros [= ->].
  - destruct (step now e s) as [s1|] eqn:E; [|done]. eauto.
Qed.

(** Brings the state left by an event into the goal, callback by
    callback. *)
Ltac step_split H :=
  let Hc := fresh "Hc" in
  destruct (step_cases _ _ _ _ H) as [? Hc];
  match type of Hc with
  | match ?e with _ => _ end => destruct e
  end; simpl in Hc;
  repeat match type of Hc with
  | exists _, _ => let x := fresh "x" in destruct Hc as [x Hc]
  | _ /\ _ => let H1 := fresh "H" in destruct Hc as [H1 Hc]
  | _ \/ _ => destruct Hc as [Hc | Hc]
  end;
  subst; unfold exec; callback_eqs; simpl.

(** X1: in a session the loading line of the log is rendered only while
    the busy flag is set, and the busy flag is set only while some
    invocation of [generateAlert] is awaiting its completion call: the
    line is never shown with nothing pending. *)
Theorem loading_line_implies_request_pending t0 cam r0 tr s :
  run tr (mount t0 cam r0) = Some s ->
  LoadingRow ∈ AlertLog (alerts s) (isLoading s) ->
  isLoading s = true /\ awaiting s <> [].
Proof.
  intros Hrun Hrow.
  assert (Hload : isLoading s = true).
  { unfold AlertLog in Hrow. rewrite !elem_of_app in Hrow.
    destruct Hrow as [Hrow | [Hrow | Hrow]].
    - apply list_elem_of_fmap in Hrow. by destruct Hrow as (a & [=] & _).
    - destruct (isLoading s); [done|]. by apply elem_of_nil in Hrow.
    - by apply list_elem_of_singleton in Hrow. }
  split; [done|]. revert Hload.
  apply (run_invariant
    (fun s => isLoading s = true -> awaiting s <> [])) with (2 := Hrun).
  - clear. intros now e s s' Hstep IH. step_split Hstep; try done.
    + by destruct (awaiting s).
    + destruct x as [? ? []]; callback_eqs; simpl; [|done].
      by destruct (awaiting s).
    + destruct o; callback_eqs; simpl; done.
  - by rewrite mount_eq.
Qed.

(** X2: the busy flag is a flag, not a count.  When two or more
    invocations are awaiting and one of them settles, in either way, the
    flag is cleared although the others are still pending. *)
Theorem settlement_clears_flag_with_requests_pending now k o fr s :
  clock s <= now ->
  awaiting s !! k = Some fr ->
  (2 <= length (awaiting s))%nat ->
  exists s',
    step now (ContentSettled k o) s = Some s' /\
    isLoading s' = false /\
    awaiting s' = delete k (awaiting s) /\
    awaiting s' <> [].
Proof.
  intros Hclk Hk Hlen. rewrite (step_settled _ _ _ _ _ Hclk Hk).
  eexists; split; [done|]. unfold exec.
  assert (Hne : delete k (awaiting s) <> []).
  { intros Hnil. apply (f_equal length) in Hnil.
    rewrite length_delete in Hnil by eauto. simpl in Hnil. lia. }
  destruct o; callback_eqs; simpl; done.
Qed.

(** X3: in a session every completion call that was made is either still
    awaited or has settled once: the number of requests sent is the
    number of parked invocations plus the number of settlements
    delivered. *)
Theorem requests_are_awaited_or_settled t0 cam r0 tr s :
  run tr (mount t0 cam r0) = Some s ->
  length (requests s) = (length (awaiting s) + settlements tr)%nat.
Proof.
  assert (Hgen : forall tr s0 s1, run tr s0 = Some s1 ->
    (length (requests s1) + length (awaiting s0) =
     length (requests s0) + length (awaiting s1) + settlements tr)%nat).
  { clear. intros tr. induction tr as [|[now e] tr IH]; intros s0 s1; simpl.
    - intros [= ->]. lia.
    - destruct (step now e s0) as [s'|] eqn:Hstep; [|done].
      intros Hrun. specialize (IH _ _ Hrun).
      assert ((length (requests s') + length (awaiting s0) =
               length (requests s0) + length (awaiting s')
               + (if is_settlement e then 1 else 0))%nat); [|lia].
      clear IH Hrun. step_split Hstep; rewrite ?length_app; simpl; try lia.
      + destruct x as [? ? []]; callback_eqs; simpl;
          rewrite ?length_app; simpl; lia.
      + assert (length (delete k (awaiting s0)) = (length (awaiting s0) - 1)%nat)
          by (apply length_delete; eauto).
        assert (k < length (awaiting s0))%nat by by eapply lookup_lt_Some.
        destruct o; callback_eqs; simpl; lia. }
  intros Hrun. specialize (Hgen _ _ _ Hrun). rewrite mount_eq in Hgen.
  simpl in Hgen. lia.
Qed.

(** X4: in a session every request sent to the completion service names
    the model gemini-2.5-flash and carries the prompt built from the
    bootstrap text or from an issue of the catalog; nothing else is ever
    sent. *)
Theorem requests_carry_known_prompts t0 cam r0 tr s r :
  run tr (mount t0 cam r0) = Some s ->
  r ∈ requests s ->
  rq_model r = "gemini-2.5-flash"%string /\
  (rq_contents r = prompt_of initialIssue \/
   exists i, i ∈ possibleIssues /\ rq_contents r = prompt_of (issue i)).
Proof.
  intros Hrun. revert r.
  apply (run_invariant (fun s => forall r, r ∈ requests s ->
     rq_model r = "gemini-2.5-flash"%string /\
     (rq_contents r = prompt_of initialIssue \/
      exists i, i ∈ possibleIssues /\ rq_contents r = prompt_of (issue i))))
    with (2 := Hrun).
  - clear. intros now e s s' Hstep IH. step_split Hstep; try done.
    + intros r [Hr | ->%list_elem_of_singleton]%elem_of_app; [eauto|].
      simpl. eauto.
    + destruct x as [? ? []]; callback_eqs; simpl; [|done].
      intros r [Hr | ->%list_elem_of_singleton]%elem_of_app; [eauto|].
      simpl. eauto.
    + destruct o; callback_eqs; simpl; done.
  - rewrite mount_eq. simpl. intros r Hr. by apply elem_of_nil in Hr.
Qed.

(** X5: the bootstrap request is sent exactly once in a session, by the
    firing of the timer the mount effect arms: at every moment either that
    timer is pending and no bootstrap request has been sent, or it has
    fired and exactly one has.  No other event arms that timer or sends
    that prompt. *)
Theorem bootstrap_request_sent_once t0 cam r0 tr s :
  run tr (mount t0 cam r0) = Some s ->
  (count is_bootstrap_request (requests s)
   + count is_bootstrap_timer (timeouts s) = 1)%nat.
Proof.
  intros Hrun.
  apply (run_invariant (fun s =>
     (count is_bootstrap_request (requests s)
      + count is_bootstrap_timer (timeouts s) = 1)%nat)) with (2 := Hrun).
  - clear. intros now e s s' Hstep IH. step_split Hstep; try done.
    + rewrite count_app. simpl.
      match goal with Hin : _ ∈ possibleIssues |- _ =>
        rewrite (catalog_prompt_not_bootstrap _ Hin) end.
      lia.
    + match goal with Hk : timeouts s !! _ = Some _ |- _ =>
        rewrite (count_delete is_bootstrap_timer _ _ _ Hk) in IH end.
      set (c := count is_bootstrap_timer (delete k (timeouts s))) in *.
      destruct x as [? ? []]; callback_eqs; simpl;
        rewrite ?count_app; simpl; unfold is_bootstrap_timer in IH; simpl in IH.
      * change (is_bootstrap_request _) with true. fold c. lia.
      * fold c. lia.
    + destruct o; callback_eqs; simpl; [|done].
      destruct (decide (sus_type x = Good)); [|done].
      rewrite count_app.
      change (count is_bootstrap_timer [mkTimeout now 1000 ResetStatus]) with 0%nat.
      lia.
  - by rewrite mount_eq.
Qed.

(** X6: for every draw [Math.random()] can return, a double [rnd] in
    [0, 1), the callback of the recurring timer (when its guard lets it
    through) never indexes outside the catalog, not even at the largest
    draw: it enters [generateAlert] with the issue at index
    [k = Math.floor(rnd * 6)], the product being the rounded one, and that
    index is within one of the exact product: [k - 1 < 6 * rnd < k + 1]. *)
Theorem issue_selected_by_sixths rnd s :
  is_double rnd = true -> (0 <= rnd)%Q -> (rnd < 1)%Q ->
  exists k i,
    possibleIssues !! k = Some i /\
    Z.of_nat k = Qfloor (fmul rnd (inject_Z 6)) /\
    (inject_Z (Z.of_nat k) - 1 < rnd * inject_Z 6)%Q /\
    (rnd * inject_Z 6 < inject_Z (Z.of_nat k) + 1)%Q /\
    intervalCallback (mkScope false) rnd s =
    generateAlert (issue i) (issue_type i) s.
Proof.
  intros Hd H0 H1.
  destruct (random_issue_defined rnd Hd H0 H1) as [i Hi].
  change (inject_Z (Z.of_nat (length possibleIssues))) with (inject_Z 6) in Hi.
  pose proof (random_index_in_range rnd Hd H0 H1) as [Hlo Hhi].
  set (z := Qfloor (fmul rnd (inject_Z 6))) in *.
  assert (Hx0 : (0 <= rnd * inject_Z 6)%Q).
  { apply Qmult_le_0_compat; [done|discriminate]. }
  exists (Z.to_nat z), i.
  unfold array_get in Hi.
  destruct (z <? 0) eqn:E; [apply Z.ltb_lt in E; lia|].
  split; [done|]. rewrite Z2Nat.id by done. split; [done|]. split; [|split].
  - destruct (Qlt_le_dec (inject_Z z - 1) (rnd * inject_Z 6)) as [|Hle]; [done|].
    exfalso. destruct (Z.eq_dec z 0) as [Hz|Hz].
    + rewrite Hz in Hle. apply (Qlt_irrefl 0).
      eapply Qle_lt_trans; [exact Hx0|]. eapply Qle_lt_trans; [exact Hle|].
      reflexivity.
    + assert (Hrd : (fmul rnd (inject_Z 6) <= inject_Z (z - 1))%Q).
      { apply round_double_le_Z; [done| |lia].
        eapply Qle_trans; [exact Hle|].
        unfold Zminus. rewrite inject_Z_plus. apply Qle_refl. }
      apply Qfloor_resp_le in Hrd. rewrite Qfloor_Z in Hrd. fold z in Hrd. lia.
  - destruct (Qlt_le_dec (rnd * inject_Z 6) (inject_Z z + 1)) as [|Hge]; [done|].
    exfalso.
    assert (Hrd : (inject_Z (z + 1) <= fmul rnd (inject_Z 6))%Q).
    { apply round_double_ge_Z; [|lia].
      eapply Qle_trans; [|exact Hge]. rewrite inject_Z_plus. apply Qle_refl. }
    apply Qfloor_resp_le in Hrd. rewrite Qfloor_Z in Hrd. fold z in Hrd. lia.
  - unfold intervalCallback. cbn [scope_isLoading].
    change (inject_Z (Z.of_nat (length possibleIssues))) with (inject_Z 6).
    fold z. unfold array_get. by rewrite E, Hi.
Qed.

(** Every pending one-shot timer of a session is the bootstrap timer of
    the mount effect or a reset timer with delay 1000, armed when a Good
    entry was logged. *)
Lemma session_timeouts t0 cam r0 tr s tm :
  run tr (mount t0 cam r0) = Some s ->
  tm ∈ timeouts s ->
  tm = mkTimeout t0 1500 InitialMessage \/
  (t_action tm = ResetStatus /\ t_delay tm = 1000 /\
   exists a, a ∈ alerts s /\ type a = Good).
Proof.
  intros Hrun. revert tm.
  apply (run_invariant (fun s => forall tm, tm ∈ timeouts s ->
     tm = mkTimeout t0 1500 InitialMessage \/
     (t_action tm = ResetStatus /\ t_delay tm = 1000 /\
      exists a, a ∈ alerts s /\ type a = Good))) with (2 := Hrun).
  - clear. intros now e s s' Hstep IH.
    assert (Hgrow : forall tm,
      tm = mkTimeout t0 1500 InitialMessage \/
      (t_action tm = ResetStatus /\ t_delay tm = 1000 /\
       exists a, a ∈ alerts s /\ type a = Good) ->
      forall a', tm = mkTimeout t0 1500 InitialMessage \/
      (t_action tm = ResetStatus /\ t_delay tm = 1000 /\
       exists a, a ∈ alerts s ++ [a'] /\ type a = Good)).
    { intros tm [->|(? & ? & a & Ha & ?)] a'; [by left|right].
      repeat split; try done. exists a. split; [|done].
      apply elem_of_app. by left. }
    step_split Hstep; try done.
    + intros tm Htm. by apply Hgrow, IH.
    + destruct x as [? ? []]; callback_eqs; simpl;
        intros tm Htm%list_elem_of_delete_inv; eauto.
    + destruct o; callback_eqs; simpl.
      * destruct (decide (sus_type x = Good)) as [Hg|].
        -- intros tm [Htm | ->%list_elem_of_singleton]%elem_of_app;
             [by apply Hgrow, IH|].
           right. repeat split; try done. eexists. split.
           ++ apply elem_of_app. right. by apply list_elem_of_singleton.
           ++ done.
        -- intros tm Htm. by apply Hgrow, IH.
      * intros tm Htm. by apply Hgrow, IH.
  - rewrite mount_eq. simpl. intros tm ->%list_elem_of_singleton. by left.
Qed.

(** X7: in a session the global status goes back to Good from Warning or
    Error in one way only: by the firing of a reset timer, which was armed
    with delay 1000 at least 1000 ms earlier, when a Good entry was
    logged.  No completion, no firing of the recurring timer and no camera
    event clears a Warning or an Error. *)
Theorem status_returns_to_good_only_by_reset t0 cam r0 tr s now e s' :
  run tr (mount t0 cam r0) = Some s ->
  step now e s = Some s' ->
  signalStatus s <> Good ->
  signalStatus s' = Good ->
  exists k tm,
    e = TimeoutFired k /\
    timeouts s !! k = Some tm /\
    t_action tm = ResetStatus /\
    t_delay tm = 1000 /\
    t_armed tm + 1000 <= now /\
    exists a, a ∈ alerts s /\ type a = Good.
Proof.
  intros Hrun Hstep Hbad.
  pose proof (fun tm => session_timeouts _ _ _ _ _ tm Hrun) as Htm.
  step_split Hstep; try done.
  - match goal with |- context [decide (?t <> Good)] =>
      destruct (decide (t <> Good)) end; done.
  - match goal with Hk : timeouts s !! _ = Some ?tm |- _ =>
      pose proof (Htm tm (list_elem_of_lookup_2 _ _ _ Hk)) as Hkind;
      pose proof Hk as Hk' end.
    destruct x as [armed delay []]; callback_eqs; simpl; [done|].
    intros _. destruct Hkind as [[=] | (_ & Hd & Ha)]. simpl in Hd. subst delay.
    eexists _, _. split; [done|]. split; [done|].
    repeat split; try done.
    match goal with Hdue : timeout_due _ _ = true |- _ =>
      unfold timeout_due in Hdue; simpl in Hdue; apply Z.leb_le in Hdue end.
    done.
  - destruct o; callback_eqs; simpl; done.
Qed.

(** X8: the effect's cleanup cancels the recurring timer and nothing
    else.  After it no firing of the recurring timer is ever delivered
    again, whatever happens later; the one-shot timers that were pending
    and the invocations that were awaiting are untouched, so a bootstrap
    timer still pending at teardown can still fire afterwards, and then
    sends its request. *)
Theorem cleanup_cancels_recurring_timer_only now s s' tr s'' :
  step now Unmount s = Some s' ->
  run tr s' = Some s'' ->
  timeouts s' = timeouts s /\
  awaiting s' = awaiting s /\
  requests s' = requests s /\
  interval s'' = None /\
  (forall now' rnd, step now' (IntervalFired rnd) s'' = None) /\
  (forall k tm now',
     timeouts s !! k = Some tm -> t_action tm = InitialMessage ->
     now <= now' -> t_armed tm + t_delay tm <= now' ->
     exists s1, step now' (TimeoutFired k) s' = Some s1 /\
       requests s1 = requests s ++
         [mkRequest "gemini-2.5-flash" (prompt_of initialIssue)]).
Proof.
  intros Hstep Hrun.
  destruct (step_cases _ _ _ _ Hstep) as [Hclk ->]. simpl.
  assert (Hnone : interval s'' = None).
  { destruct (interval s'') as [iv|] eqn:E; [|done].
    by destruct (run_interval _ _ _ _ Hrun E) as (? & [=] & _). }
  repeat split; try done.
  - intros now' rnd. unfold step. destruct (now' <? clock s''); [done|].
    simpl. by rewrite Hnone.
  - intros k tm now' Hk Hact Hnow Hdue.
    rewrite (step_timeout _ k tm) by done.
    unfold timeout_due. destruct (_ <=? now') eqn:E; [|apply Z.leb_gt in E; lia].
    rewrite Hact. eexists; split; [done|].
    unfold exec. by rewrite timeoutCallback_eq, generateAlert_eq.
Qed.

(** The ids of the log after a run: those before it, then the clock
    readings of the events of the run that write the log. *)
Lemma run_ids_are_write_times tr s s' :
  run tr s = Some s' ->
  map id (alerts s') = map id (alerts s) ++ write_times tr.
Proof.
  revert s. induction tr as [|[now e] tr IH]; intros s; simpl.
  - intros [= ->]. by rewrite app_nil_r.
  - destruct (step now e s) as [s1|] eqn:Hstep; [|done].
    intros Hrun. rewrite (IH _ Hrun).
    pose proof (step_alerts _ _ _ _ Hstep) as Ha.
    destruct (writes_log e).
    + destruct Ha as (ts & ty & msg & ->).
      rewrite map_app, <- app_assoc. done.
    + by rewrite Ha.
Qed.

(** X9: in a session the ids of the log, in order, are exactly the clock
    readings of the events that wrote it (settlements of completion calls
    and the camera's rejection), and they are the keys React is given for
    the rows of the log.  So the keys are pairwise distinct precisely when
    no two of those events fall in the same millisecond. *)
Theorem log_ids_are_write_times t0 cam r0 tr s :
  run tr (mount t0 cam r0) = Some s ->
  map id (alerts s) = write_times tr /\
  omap child_key (AlertLog (alerts s) (isLoading s)) = write_times tr /\
  (NoDup (omap child_key (AlertLog (alerts s) (isLoading s)))
   <-> NoDup (write_times tr)).
Proof.
  intros Hrun.
  pose proof (run_ids_are_write_times _ _ _ Hrun) as Hids.
  rewrite mount_eq in Hids. simpl in Hids.
  assert (Hkeys : omap child_key (AlertLog (alerts s) (isLoading s))
                  = map id (alerts s)).
  { unfold AlertLog. rewrite !omap_app.
    assert (Hrows : forall l, omap child_key (map alertRow l) = map id l).
    { induction l as [|a l IH]; simpl; [done|]. f_equal. exact IH. }
    rewrite Hrows. destruct (isLoading s); simpl; by rewrite app_nil_r. }
  rewrite Hkeys, Hids. done.
Qed.

(** X10: responses are logged in the order they arrive, each under the
    severity of its own request.  When two invocations are awaiting and
    the later one's call completes first, its entry comes first in the
    log, with the later invocation's severity and its own text; the
    earlier invocation's entry follows when its call completes. *)
Theorem responses_logged_in_arrival_order s j k fj fk t1 t2 x y :
  clock s <= t1 -> t1 <= t2 ->
  (j < k)%nat ->
  awaiting s !! j = Some fj ->
  awaiting s !! k = Some fk ->
  exists s',
    run [(t1, ContentSettled k (Fulfilled x));
         (t2, ContentSettled j (Fulfilled y))] s = Some s' /\
    alerts s' = alerts s ++
      [mkAlert t1 (toLocaleTimeString t1) (sus_type fk) x;
       mkAlert t2 (toLocaleTimeString t2) (sus_type fj) y] /\
    awaiting s' = delete j (delete k (awaiting s)).
Proof.
  intros Hc1 Hc2 Hjk Hj Hk. simpl.
  rewrite (step_settled _ _ _ _ _ Hc1 Hk).
  unfold exec at 1. rewrite resume_fulfilled_eq. cbn [fst].
  rewrite (step_settled t2 j _ fj).
  - eexists; split; [done|]. unfold exec. rewrite resume_fulfilled_eq. simpl.
    by rewrite <- app_assoc.
  - done.
  - simpl. by rewrite list_lookup_delete_lt.
Qed.

(** X11: in a browser without [navigator.mediaDevices.getUserMedia] the
    effect never asks for the camera: throughout the session neither
    callback of the camera promise can run, so the log never gets the
    webcam entry. *)
Theorem no_camera_request_without_getUserMedia t0 r0 tr s :
  run tr (mount t0 false r0) = Some s ->
  camera s = NotRequested /\
  (forall now err, step now (CameraDenied err) s = None) /\
  (forall now b, step now (CameraGranted b) s = None).
Proof.
  intros Hrun.
  destruct (session_without_getUserMedia _ _ _ _ Hrun) as [Hcam Hden].
  repeat split; try done.
  intros now b. unfold step. destruct (now <? clock s); [done|].
  simpl. by rewrite Hcam.
Qed.

(** The log after a run extends the log before it. *)
Lemma run_alerts_extend tr s s' :
  run tr s = Some s' -> exists added, alerts s' = alerts s ++ added.
Proof.
  revert s. induction tr as [|[now e] tr IH]; intros s; simpl.
  - intros [= ->]. exists []. by rewrite app_nil_r.
  - destruct (step now e s) as [s1|] eqn:Hstep; [|done].
    intros Hrun. destruct (IH _ Hrun) as [added ->].
    pose proof (step_alerts _ _ _ _ Hstep) as Ha.
    destruct (writes_log e).
    + destruct Ha as (ts & ty & msg & ->). rewrite <- app_assoc. eauto.
    + rewrite Ha. eauto.
Qed.

(** X12: rows of the rendered log never move or change.  A row that
    [AlertLog] shows at some position before a run is shown at the same
    position after it, with the same key, classes, label, time and text,
    whatever the busy flag is at either moment. *)
Theorem rendered_rows_are_stable tr s s' n key cls lcls label time text :
  run tr s = Some s' ->
  AlertLog (alerts s) (isLoading s) !! n = Some (AlertRow key cls lcls label time text) ->
  AlertLog (alerts s') (isLoading s') !! n = Some (AlertRow key cls lcls label time text).
Proof.
  intros Hrun Hrow. destruct (run_alerts_extend _ _ _ Hrun) as [added ->].
  unfold AlertLog in *.
  assert (Hin : (n < length (map alertRow (alerts s)))%nat).
  { destruct (decide (n < length (map alertRow (alerts s)))%nat); [done|].
    rewrite lookup_app_r in Hrow by lia.
    destruct (isLoading s); simpl in Hrow;
      destruct (n - length (map alertRow (alerts s)))%nat as [|[|[|m]]];
      simpl in Hrow; discriminate Hrow. }
  rewrite lookup_app_l in Hrow by done.
  rewrite map_app, <- app_assoc. by rewrite lookup_app_l.
Qed.

End App.

(** X13: the two display components agree, and distinct severities never
    look alike.  For every severity the colour of its label in the log is
    the text colour of the status badge; the row style, the badge text,
    the badge colour and the upper-cased label each tell the three
    severities apart. *)
Theorem display_of_severities_consistent (st st' : SignalStatus) :
  alertLabelColor st = badge_textColor (statusConfig st) /\
  (getAlertStyle st = getAlertStyle st' -> st = st') /\
  (badge_text (statusConfig st) = badge_text (statusConfig st') -> st = st') /\
  (badge_color (statusConfig st) = badge_color (statusConfig st') -> st = st') /\
  (toUpperCase (enumValue st) = toUpperCase (enumValue st') -> st = st').
Proof.
  destruct st, st'; repeat split; try done; vm_compute; discriminate.
Qed.

(** ** Concrete sessions

    The component is mounted at clock reading 0 in a browser that has
    [getUserMedia]; times are formatted by [utcTimeString]. *)

(** Evaluates a closed goal of the session, conjunct by conjunct. *)
Ltac evaluated :=
  lazymatch goal with
  | |- _ /\ _ => split; [vm_compute; reflexivity | evaluated]
  | |- _ => vm_compute; reflexivity
  end.

(** C1: the guard of the recurring timer does not hold back a firing
    while a request is in flight.  The timer's delay is 8000 (draw 0 at
    mount).  The bootstrap timer fires at 1500 and its request is still
    awaited at 8000, with [isLoading] set; the recurring timer fires then
    (draw 1/2, so the issue at index 3), and a second request is sent and a
    second invocation parked. *)
Theorem recurring_timer_overlaps_request_in_flight :
  exists s1 s2,
    run utcTimeString [(1500, TimeoutFired 0)] (mount 0 true 0) = Some s1 /\
    isLoading s1 = true /\
    awaiting s1 = [mkSuspended Good] /\
    interval s1 = Some (mkInterval 0 (intervalDelay 0) (mkScope false)) /\
    step utcTimeString 8000 (IntervalFired (1 # 2)) s1 = Some s2 /\
    awaiting s2 = [mkSuspended Good; mkSuspended Error] /\
    requests s2 =
      [mkRequest "gemini-2.5-flash" (prompt_of initialIssue);
       mkRequest "gemini-2.5-flash"
         (prompt_of "Complete audio dropout on main program feed.")].
Proof.
  eexists. eexists. evaluated.
Qed.

(** C2, the claim as stated fails: in this session the recurring timer
    fires at 8000 and at 16000.  [Math.random()] returns 1/2 in the first
    firing and 1/4 in the second, for which the delay formula gives 11500
    and 9750; the timer's delay after either firing is the 8000 computed
    at mount (draw 0), and the second firing is not delivered at 15999. *)
Lemma recurring_timer_delay_not_recomputed :
  exists s1 s2,
    run utcTimeString
        [(1500, TimeoutFired 0);
         (2100, ContentSettled 0 (Fulfilled "All feeds stable."));
         (3100, TimeoutFired 0);
         (8000, IntervalFired (1 # 2))] (mount 0 true 0) = Some s1 /\
    run utcTimeString
        [(9000, ContentSettled 0 (Fulfilled "Audio dropout on main feed."));
         (16000, IntervalFired (1 # 4))] s1 = Some s2 /\
    interval (mount 0 true 0) = Some (mkInterval 0 (intervalDelay 0) (mkScope false)) /\
    interval s1 = Some (mkInterval 8000 (intervalDelay 0) (mkScope false)) /\
    interval s2 = Some (mkInterval 16000 (intervalDelay 0) (mkScope false)) /\
    (intervalDelay 0 == inject_Z 8000)%Q /\
    (intervalDelay (1 # 2) == inject_Z 11500)%Q /\
    (intervalDelay (1 # 4) == inject_Z 9750)%Q /\
    run utcTimeString
        [(9000, ContentSettled 0 (Fulfilled "Audio dropout on main feed."));
         (15999, IntervalFired (1 # 4))] s1 = None.
Proof.
  eexists. eexists. evaluated.
Qed.

Lemma recurring_timer_delay_fixed_at_mount_witness :
  exists s iv,
    run utcTimeString [(1500, TimeoutFired 0)] (mount 0 true (1 # 8192)) = Some s /\
    interval s = Some iv /\
    (i_period iv == 8192875 # 1024)%Q /\
    timer_ms (i_period iv) = 8000 /\
    step utcTimeString 7999 (IntervalFired (1 # 2)) s = None /\
    exists s', step utcTimeString 8000 (IntervalFired (1 # 2)) s = Some s'.
Proof.
  eexists. eexists. split; [evaluated|]. split; [evaluated|].
  match goal with |- (i_period ?iv == _)%Q /\ _ =>
    destruct (recurring_timer_delay_fixed_at_mount utcTimeString 0 true (1 # 8192)
                [(1500, TimeoutFired 0)] _ iv
                ltac:(unfold Qle; simpl; lia) ltac:(reflexivity)
                ltac:(evaluated) ltac:(evaluated))
      as (_ & _ & _ & _ & Hearly & Hdue & _)
  end.
  split; [evaluated|]. split; [evaluated|]. split.
  - exact (Hearly 7999 (1 # 2)%Q ltac:(vm_compute; reflexivity)).
  - exact (Hdue 8000 (1 # 2)%Q ltac:(vm_compute; discriminate)
                ltac:(vm_compute; discriminate)).
Defined.

(** The largest double below 1 is a draw for which the delay is 15000
    itself, and for which the index of the issue is still 5. *)
Lemma largest_draw :
  is_double (1 - (1 # 2 ^ 53)) = true /\
  (intervalDelay (1 - (1 # 2 ^ 53)) == inject_Z 15000)%Q /\
  Qfloor (fmul (1 - (1 # 2 ^ 53)) (inject_Z 6)) = 5.
Proof. evaluated. Qed.

Lemma failed_completion_witness :
  exists s,
    run utcTimeString [(1500, TimeoutFired 0)] (mount 0 true 0) = Some s /\
    exists s',
      step utcTimeString 2000 (ContentSettled 0 (Rejected "Failed to fetch")) s = Some s' /\
      signalStatus s' = Error /\
      alerts s' = alerts s ++
        [mkAlert 2000 (utcTimeString 2000) Error
           "Failed to get analysis from AI. Check API connection."] /\
      requests s' = requests s.
Proof.
  eexists. split; [evaluated|].
  match goal with |- context [step _ _ _ ?s] =>
    destruct (failed_completion_is_logged_and_contained utcTimeString 2000 0
                (mkSuspended Good) "Failed to fetch" s
                ltac:(simpl; lia) ltac:(reflexivity))
      as (s' & Hstep & Hst & _ & Hal & _ & Hrq & _)
  end.
  exists s'. exact (conj Hstep (conj Hst (conj Hal Hrq))).
Defined.

Lemma successful_completion_witness :
  exists s,
    run utcTimeString
        [(1500, TimeoutFired 0);
         (2100, ContentSettled 0 (Fulfilled "All feeds stable."));
         (8000, IntervalFired (1 # 4))] (mount 0 true 0) = Some s /\
    exists s',
      step utcTimeString 9500
           (ContentSettled 0 (Fulfilled "Uplink failure on transponder 4")) s = Some s' /\
      alerts s' = alerts s ++
        [mkAlert 9500 (utcTimeString 9500) Error "Uplink failure on transponder 4"].
Proof.
  eexists. split; [evaluated|].
  match goal with |- context [step _ _ _ ?s] =>
    destruct (successful_completion_appends_alert utcTimeString 9500 0
                (mkSuspended Error) "Uplink failure on transponder 4" s
                ltac:(simpl; lia) ltac:(reflexivity))
      as (s' & Hstep & Hal & _)
  end.
  exists s'. exact (conj Hstep Hal).
Defined.

Lemma status_set_on_entry_witness :
  Error <> Good /\
  signalStatus
    (exec (generateAlert "Critical signal loss on primary satellite uplink." Error)
          (mount 0 true 0)) = Error.
Proof.
  split; [discriminate|].
  exact (proj1 (status_set_on_entry utcTimeString
                  "Critical signal loss on primary satellite uplink." Error
                  (mount 0 true 0) ltac:(discriminate))).
Defined.

Lemma good_completion_schedules_reset_witness :
  exists s,
    run utcTimeString [(1500, TimeoutFired 0)] (mount 0 true 0) = Some s /\
    exists s',
      step utcTimeString 2100 (ContentSettled 0 (Fulfilled "All feeds stable.")) s = Some s' /\
      timeouts s' = timeouts s ++ [mkTimeout 2100 1000 ResetStatus] /\
      step utcTimeString 3099 (TimeoutFired 0) s' = None /\
      exists s3, step utcTimeString 3100 (TimeoutFired 0) s' = Some s3 /\
                 signalStatus s3 = Good.
Proof.
  eexists. split; [evaluated|].
  match goal with |- context [step _ _ _ ?s] =>
    destruct (good_completion_schedules_reset utcTimeString 2100 0
                (mkSuspended Good) "All feeds stable." s
                ltac:(simpl; lia) ltac:(reflexivity) ltac:(reflexivity))
      as (s' & Hstep & Htm & Hfire & _)
  end.
  exists s'. split; [exact Hstep|]. split; [exact Htm|].
  assert (Hj : timeouts s' !! 0%nat = Some (mkTimeout 2100 1000 ResetStatus))
    by (rewrite Htm; reflexivity).
  assert (Hc : clock s' <= 3099).
  { vm_compute in Hstep. injection Hstep as <-. simpl. lia. }
  split.
  - exact (Hfire s' 0%nat 3099 Hj Hc).
  - exact (Hfire s' 0%nat 3100 Hj ltac:(lia)).
Defined.

Lemma alerts_append_only_witness :
  exists s',
    run utcTimeString
        [(1500, TimeoutFired 0);
         (2000, CameraDenied "NotAllowedError");
         (2600, ContentSettled 0 (Rejected "Failed to fetch"));
         (8000, IntervalFired (1 # 2))] (mount 0 true 0) = Some s' /\
    exists added,
      alerts s' = alerts (mount 0 true 0) ++ added /\ length added = 2%nat.
Proof.
  eexists. split; [evaluated|].
  match goal with |- context [alerts ?s' = _] =>
    destruct (alerts_append_only utcTimeString
                [(1500, TimeoutFired 0);
                 (2000, CameraDenied "NotAllowedError");
                 (2600, ContentSettled 0 (Rejected "Failed to fetch"));
                 (8000, IntervalFired (1 # 2))] (mount 0 true 0) s'
                ltac:(evaluated))
      as (added & Heq & Hlen & _)
  end.
  exists added. exact (conj Heq Hlen).
Defined.

(** C8, the claim as stated fails: the camera request is rejected and the
    completion call of the bootstrap firing fails within the same
    millisecond (clock reading 2000).  The log then holds two different
    entries with the same id. *)
Lemma two_alerts_share_an_id :
  exists s a b,
    run utcTimeString
        [(1500, TimeoutFired 0);
         (2000, CameraDenied "NotAllowedError");
         (2000, ContentSettled 0 (Rejected "Failed to fetch"))]
        (mount 0 true 0) = Some s /\
    alerts s = [a; b] /\
    message a =
      "Webcam access denied or unavailable. Displaying placeholder background."%string /\
    message b = "Failed to get analysis from AI. Check API connection."%string /\
    a <> b /\
    id a = 2000 /\ id b = 2000 /\
    ~ id a < id b.
Proof.
  eexists. eexists. eexists.
  split; [evaluated|]. split; [evaluated|].
  split; [evaluated|]. split; [evaluated|].
  split; [discriminate|]. split; [evaluated|]. split; [evaluated|].
  simpl. lia.
Qed.

Lemma alert_ids_follow_the_clock_witness :
  exists s,
    run utcTimeString
        [(1500, TimeoutFired 0); (2000, CameraDenied "NotAllowedError")]
        (mount 0 true 0) = Some s /\
    exists s',
      step utcTimeString 2600 (ContentSettled 0 (Fulfilled "All feeds stable.")) s = Some s' /\
      ids_sorted (alerts s').
Proof.
  eexists. split; [evaluated|]. eexists. split; [evaluated|].
  match goal with |- ids_sorted (alerts ?s') =>
    exact (proj1 (alert_ids_follow_the_clock utcTimeString 0 true 0
                    [(1500, TimeoutFired 0); (2000, CameraDenied "NotAllowedError")]
                    _ 2600 (ContentSettled 0 (Fulfilled "All feeds stable.")) s'
                    ltac:(evaluated) ltac:(evaluated)))
  end.
Defined.

Lemma camera_failure_witness :
  exists s',
    step utcTimeString 700 (CameraDenied "NotAllowedError") (mount 0 true 0) = Some s' /\
    alerts s' =
      [mkAlert 700 (utcTimeString 700) Error
         "Webcam access denied or unavailable. Displaying placeholder background."] /\
    signalStatus s' = Good.
Proof.
  destruct (camera_failure_logged_status_unchanged utcTimeString 700
              "NotAllowedError" (mount 0 true 0)
              ltac:(simpl; lia) ltac:(reflexivity))
    as (s' & Hstep & Hal & Hst & _).
  exists s'. exact (conj Hstep (conj Hal Hst)).
Defined.

Lemma bootstrap_enters_unconditionally_witness :
  exists s,
    run utcTimeString [(8000, IntervalFired (1 # 2))] (mount 0 true 0) = Some s /\
    isLoading s = true /\
    awaiting s = [mkSuspended Error] /\
    exists s',
      step utcTimeString 8001 (TimeoutFired 0) s = Some s' /\
      awaiting s' = awaiting s ++ [mkSuspended Good].
Proof.
  eexists. split; [evaluated|]. split; [evaluated|]. split; [evaluated|].
  match goal with |- context [step _ _ _ ?s] =>
    destruct (bootstrap_enters_unconditionally utcTimeString 8001 0
                (mkTimeout 0 1500 InitialMessage) s
                ltac:(simpl; lia) ltac:(reflexivity) ltac:(reflexivity)
                ltac:(simpl; lia))
      as (s' & Hstep & _ & Haw & _)
  end.
  exists s'. exact (conj Hstep Haw).
Defined.

(** ** Concrete sessions for the properties beyond the claims *)

Lemma loading_line_witness :
  exists s,
    run utcTimeString [(1500, TimeoutFired 0)] (mount 0 true 0) = Some s /\
    LoadingRow ∈ AlertLog (alerts s) (isLoading s) /\
    isLoading s = true /\ awaiting s <> [].
Proof.
  eexists. split; [evaluated|].
  assert (Hrow : LoadingRow ∈ [LoadingRow; LogEnd]) by apply list_elem_of_here.
  split; [exact Hrow|].
  exact (loading_line_implies_request_pending utcTimeString 0 true 0
           [(1500, TimeoutFired 0)] _ ltac:(evaluated) Hrow).
Defined.

Lemma settlement_clears_flag_witness :
  exists s,
    run utcTimeString
        [(1500, TimeoutFired 0); (8000, IntervalFired (1 # 2))]
        (mount 0 true 0) = Some s /\
    length (awaiting s) = 2%nat /\
    exists s',
      step utcTimeString 9000 (ContentSettled 0 (Fulfilled "All feeds stable.")) s = Some s' /\
      isLoading s' = false /\
      awaiting s' <> [].
Proof.
  eexists. split; [evaluated|]. split; [evaluated|].
  match goal with |- context [step _ _ _ ?s] =>
    destruct (settlement_clears_flag_with_requests_pending utcTimeString 9000 0
                (Fulfilled "All feeds stable.") (mkSuspended Good) s
                ltac:(simpl; lia) ltac:(reflexivity) ltac:(simpl; lia))
      as (s' & Hstep & Hflag & _ & Hne)
  end.
  exists s'. exact (conj Hstep (conj Hflag Hne)).
Defined.

Lemma requests_accounting_witness :
  exists s,
    run utcTimeString
        [(1500, TimeoutFired 0);
         (2100, ContentSettled 0 (Fulfilled "All feeds stable."));
         (8000, IntervalFired (1 # 2))] (mount 0 true 0) = Some s /\
    length (requests s) = (length (awaiting s) + 1)%nat.
Proof.
  eexists. split; [evaluated|].
  match goal with |- context [requests ?s] =>
    exact (requests_are_awaited_or_settled utcTimeString 0 true 0
             [(1500, TimeoutFired 0);
              (2100, ContentSettled 0 (Fulfilled "All feeds stable."));
              (8000, IntervalFired (1 # 2))] s ltac:(evaluated))
  end.
Defined.

Lemma requests_prompts_witness :
  exists s r,
    run utcTimeString
        [(1500, TimeoutFired 0); (8000, IntervalFired (1 # 2))]
        (mount 0 true 0) = Some s /\
    requests s !! 1%nat = Some r /\
    rq_model r = "gemini-2.5-flash"%string /\
    (rq_contents r = prompt_of initialIssue \/
     exists i, i ∈ possibleIssues /\ rq_contents r = prompt_of (issue i)).
Proof.
  eexists. eexists. split; [evaluated|]. split; [evaluated|].
  match goal with |- rq_model ?r = _ /\ _ =>
    refine (requests_carry_known_prompts utcTimeString 0 true 0
              [(1500, TimeoutFired 0); (8000, IntervalFired (1 # 2))] _ r
              ltac:(evaluated) _)
  end.
  apply list_elem_of_further, list_elem_of_here.
Defined.

Lemma bootstrap_request_sent_once_witness :
  exists s,
    run utcTimeString
        [(1500, TimeoutFired 0);
         (2100, ContentSettled 0 (Fulfilled "All feeds stable."));
         (3100, TimeoutFired 0);
         (8000, IntervalFired (7 # 8))] (mount 0 true 0) = Some s /\
    (count is_bootstrap_request (requests s)
     + count is_bootstrap_timer (timeouts s) = 1)%nat.
Proof.
  eexists. split; [evaluated|].
  match goal with |- context [requests ?s] =>
    exact (bootstrap_request_sent_once utcTimeString 0 true 0
             [(1500, TimeoutFired 0);
              (2100, ContentSettled 0 (Fulfilled "All feeds stable."));
              (3100, TimeoutFired 0);
              (8000, IntervalFired (7 # 8))] s ltac:(evaluated))
  end.
Defined.

Lemma issue_selected_by_sixths_witness :
  exists k i,
    possibleIssues !! k = Some i /\
    Z.of_nat k = 5 /\
    Qfloor ((3752999689475413 # 2 ^ 52) * inject_Z 6) = 4 /\
    intervalCallback (mkScope false) (3752999689475413 # 2 ^ 52) (mount 0 true 0) =
    generateAlert (issue i) (issue_type i) (mount 0 true 0).
Proof.
  destruct (issue_selected_by_sixths (3752999689475413 # 2 ^ 52) (mount 0 true 0)
              ltac:(evaluated) ltac:(unfold Qle; simpl; lia)
              ltac:(vm_compute; reflexivity))
    as (k & i & Hk & Hz & _ & _ & Hcb).
  exists k, i. split; [exact Hk|]. split; [|split; [evaluated|exact Hcb]].
  rewrite Hz. evaluated.
Defined.

Lemma status_returns_to_good_witness :
  exists s,
    run utcTimeString
        [(1500, TimeoutFired 0);
         (2000, ContentSettled 0 (Rejected "Failed to fetch"));
         (8000, IntervalFired (7 # 8));
         (9000, ContentSettled 0 (Fulfilled "All parameters nominal."))]
        (mount 0 true 0) = Some s /\
    signalStatus s = Error /\
    exists s',
      step utcTimeString 10000 (TimeoutFired 0) s = Some s' /\
      signalStatus s' = Good /\
      exists a, a ∈ alerts s /\ type a = Good.
Proof.
  eexists. split; [evaluated|]. split; [evaluated|].
  eexists. split; [evaluated|]. split; [evaluated|].
  match goal with |- context [alerts ?s] =>
    destruct (status_returns_to_good_only_by_reset utcTimeString 0 true 0
                [(1500, TimeoutFired 0);
                 (2000, ContentSettled 0 (Rejected "Failed to fetch"));
                 (8000, IntervalFired (7 # 8));
                 (9000, ContentSettled 0 (Fulfilled "All parameters nominal."))]
                s 10000 (TimeoutFired 0) _
                ltac:(evaluated) ltac:(evaluated)
                ltac:(simpl; discriminate) ltac:(evaluated))
      as (k & tm & _ & _ & _ & _ & _ & Ha)
  end.
  exact Ha.
Defined.

Lemma cleanup_witness :
  exists s' s'',
    step utcTimeString 500 Unmount (mount 0 true 0) = Some s' /\
    run utcTimeString [(1500, TimeoutFired 0)] s' = Some s'' /\
    interval s'' = None /\
    timeouts s' = timeouts (mount 0 true 0) /\
    length (requests s'') = 1%nat.
Proof.
  eexists. eexists. split; [evaluated|]. split; [evaluated|].
  match goal with |- interval ?s2 = None /\ timeouts ?s1 = _ /\ _ =>
    destruct (cleanup_cancels_recurring_timer_only utcTimeString 500
                (mount 0 true 0) s1 [(1500, TimeoutFired 0)] s2
                ltac:(evaluated) ltac:(evaluated))
      as (Htm & _ & _ & Hnone & _)
  end.
  split; [exact Hnone|]. split; [exact Htm|]. evaluated.
Defined.

Lemma log_ids_are_write_times_witness :
  exists s,
    run utcTimeString
        [(1500, TimeoutFired 0);
         (2000, CameraDenied "NotAllowedError");
         (2600, ContentSettled 0 (Fulfilled "All feeds stable."))]
        (mount 0 true 0) = Some s /\
    map id (alerts s) = [2000; 2600].
Proof.
  eexists. split; [evaluated|].
  match goal with |- context [alerts ?s] =>
    exact (proj1 (log_ids_are_write_times utcTimeString 0 true 0
                    [(1500, TimeoutFired 0);
                     (2000, CameraDenied "NotAllowedError");
                     (2600, ContentSettled 0 (Fulfilled "All feeds stable."))]
                    s ltac:(evaluated)))
  end.
Defined.

Lemma arrival_order_witness :
  exists s,
    run utcTimeString
        [(1500, TimeoutFired 0); (8000, IntervalFired (1 # 2))]
        (mount 0 true 0) = Some s /\
    awaiting s = [mkSuspended Good; mkSuspended Error] /\
    exists s',
      run utcTimeString
          [(9000, ContentSettled 1 (Fulfilled "Audio dropout on main feed."));
           (9500, ContentSettled 0 (Fulfilled "All feeds stable."))] s = Some s' /\
      alerts s' = alerts s ++
        [mkAlert 9000 (utcTimeString 9000) Error "Audio dropout on main feed.";
         mkAlert 9500 (utcTimeString 9500) Good "All feeds stable."].
Proof.
  eexists. split; [evaluated|]. split; [evaluated|].
  match goal with |- context [alerts ?s ++ _] =>
    destruct (responses_logged_in_arrival_order utcTimeString s 0 1
                (mkSuspended Good) (mkSuspended Error) 9000 9500
                "Audio dropout on main feed." "All feeds stable."
                ltac:(simpl; lia) ltac:(lia) ltac:(lia)
                ltac:(reflexivity) ltac:(reflexivity))
      as (s' & Hrun & Hal & _)
  end.
  exists s'. exact (conj Hrun Hal).
Defined.

Lemma no_camera_request_witness :
  exists s,
    run utcTimeString [(1500, TimeoutFired 0)] (mount 0 false 0) = Some s /\
    camera s = NotRequested /\
    step utcTimeString 2000 (CameraDenied "NotFoundError") s = None.
Proof.
  eexists. split; [evaluated|].
  match goal with |- camera ?s = _ /\ _ =>
    destruct (no_camera_request_without_getUserMedia utcTimeString 0 0
                [(1500, TimeoutFired 0)] s ltac:(evaluated))
      as (Hcam & Hden & _)
  end.
  exact (conj Hcam (Hden 2000 "NotFoundError"%string)).
Defined.

Lemma rendered_rows_witness :
  exists s s',
    run utcTimeString
        [(1500, TimeoutFired 0);
         (2100, ContentSettled 0 (Fulfilled "All feeds stable."))]
        (mount 0 true 0) = Some s /\
    run utcTimeString
        [(8000, IntervalFired (1 # 2));
         (9000, ContentSettled 0 (Rejected "Failed to fetch"))] s = Some s' /\
    AlertLog (alerts s') (isLoading s') !! 0%nat =
    Some (AlertRow 2100 "p-3 rounded-md border-l-4 border-green-500 bg-green-500/10"
            "font-semibold text-green-400" "GOOD" "00:00:02" "All feeds stable.").
Proof.
  eexists. eexists. split; [evaluated|].
  match goal with |- run _ _ ?s = _ /\ _ =>
    split; [evaluated|];
    match goal with |- AlertLog (alerts ?s') _ !! _ = _ =>
      exact (rendered_rows_are_stable utcTimeString
               [(8000, IntervalFired (1 # 2));
                (9000, ContentSettled 0 (Rejected "Failed to fetch"))]
               s s' 0%nat _ _ _ _ _ _ ltac:(evaluated) ltac:(evaluated))
    end
  end.
Defined.
